(** * Grocery store simulation: the event queue and the driver's [run] loop

    A shallow embedding of [GroceryStoreSimulation] (simulation.py) and of
    the priority event queue it drains, with the properties of the
    statistics that [run] computes. *)

From Stdlib Require Import String.
From Stdlib Require Import ZArith PeanoNat List Bool Lia Sorted Permutation.
Import ListNotations.
Open Scope Z_scope.

Section Simulation.

(** The key of the [customers] dictionary of [run]: a customer identity with
    the equality the dictionary looks keys up by. *)
Context {Customer : Type}.
Context (Customer_eq_dec : forall a b : Customer, {a = b} + {a <> b}).

(** The store that events act on; [run] only hands it to [Event.do]. *)
Context {GroceryStore : Type}.

(** Modelled from the spec: the event hierarchy of event.py, absent from the
    sources.  [run] tells arrivals and checkout completions apart with
    [isinstance] and reads [timestamp] and [customer]; every other kind of
    event carries a timestamp and a checkout line number. *)
Inductive Event : Type :=
| CustomerArrival (timestamp : Z) (customer : Customer)
| CheckoutCompleted (timestamp : Z) (customer : Customer)
| LineEvent (timestamp : Z) (line_number : Z).

Definition timestamp (e : Event) : Z :=
  match e with
  | CustomerArrival t _ => t
  | CheckoutCompleted t _ => t
  | LineEvent t _ => t
  end.

(** [event.do(store)]: the store after the event and the events it spawns. *)
Context (do : Event -> GroceryStore -> list Event * GroceryStore).

(** ** The priority event queue *)

(** A pending event together with its insertion sequence number. *)
Definition Entry : Type := (nat * Event)%type.

Definition seq_of (a : Entry) : nat := fst a.
Definition time_of (a : Entry) : Z := timestamp (snd a).

(** Modelled from the spec: the [PriorityQueue] of container.py, absent from
    the sources.  It holds the pending events, each stamped with the next
    insertion sequence number; removal yields the minimum under the
    lexicographic comparison of (timestamp, sequence number). *)
Record PriorityQueue : Type := {
  items : list Entry;
  next_seq : nat
}.

Definition new_queue : PriorityQueue := {| items := []; next_seq := 0 |}.

Definition is_empty (q : PriorityQueue) : bool :=
  match items q with
  | [] => true
  | _ :: _ => false
  end.

Definition add (q : PriorityQueue) (e : Event) : PriorityQueue :=
  {| items := items q ++ [(next_seq q, e)]; next_seq := S (next_seq q) |}.

(** [a] comes out no later than [b]: the lexicographic order on
    (timestamp, sequence number). *)
Definition comes_before (a b : Entry) : Prop :=
  time_of a < time_of b
  \/ (time_of a = time_of b /\ (seq_of a <= seq_of b)%nat).

Definition entry_leb (a b : Entry) : bool :=
  (time_of a <? time_of b)
  || ((time_of a =? time_of b) && (seq_of a <=? seq_of b)%nat).

(** The minimum of [m :: l] and the other entries, in their order. *)
Fixpoint extract_min (m : Entry) (l : list Entry) : Entry * list Entry :=
  match l with
  | [] => (m, [])
  | x :: r =>
      if entry_leb m x
      then let (least, others) := extract_min m r in (least, x :: others)
      else let (least, others) := extract_min x r in (least, m :: others)
  end.

(** [remove] with the entry's stamp still on it; [None] is the empty-queue
    failure. *)
Definition remove_entry (q : PriorityQueue) : option (Entry * PriorityQueue) :=
  match items q with
  | [] => None
  | m :: l =>
      let (least, others) := extract_min m l in
      Some (least, {| items := others; next_seq := next_seq q |})
  end.

Definition remove (q : PriorityQueue) : option (Event * PriorityQueue) :=
  match remove_entry q with
  | None => None
  | Some (least, q') => Some (snd least, q')
  end.

(** *** Sequences of queue calls *)

Inductive QueueCall : Type :=
| Add (e : Event)
| Remove.

(** The queue, and the entries removed so far, oldest first. *)
Record QueueRun : Type := {
  queue : PriorityQueue;
  removed : list Entry
}.

(** One call; [None] when [remove] is called on an empty queue. *)
Definition call (s : QueueRun) (c : QueueCall) : option QueueRun :=
  match c with
  | Add e => Some {| queue := add (queue s) e; removed := removed s |}
  | Remove =>
      match remove_entry (queue s) with
      | None => None
      | Some (least, q') => Some {| queue := q'; removed := removed s ++ [least] |}
      end
  end.

(** The calls in order, up to the first one that fails. *)
Fixpoint calls (s : QueueRun) (cs : list QueueCall) : QueueRun :=
  match cs with
  | [] => s
  | c :: rest =>
      match call s c with
      | None => s
      | Some s' => calls s' rest
      end
  end.

(** No event is added with a timestamp below that of an event that has
    already been removed. *)
Definition in_time (s : QueueRun) (c : QueueCall) : bool :=
  match c with
  | Add e => forallb (fun a => time_of a <=? timestamp e) (removed s)
  | Remove => true
  end.

Fixpoint adds_in_time (s : QueueRun) (cs : list QueueCall) : bool :=
  match cs with
  | [] => true
  | c :: rest =>
      in_time s c
      && match call s c with
         | None => true
         | Some s' => adds_in_time s' rest
         end
  end.

Definition fresh_run : QueueRun := {| queue := new_queue; removed := [] |}.

(** Of two entries with the same timestamp, the one stamped first. *)
Definition fifo_order (a b : Entry) : Prop :=
  time_of a = time_of b -> (seq_of a < seq_of b)%nat.

(** The stamps of the pending entries are distinct and already handed out. *)
Definition stamped (q : PriorityQueue) : Prop :=
  NoDup (map seq_of (items q))
  /\ Forall (fun a => (seq_of a < next_seq q)%nat) (items q).

(** What holds of a queue and of what came out of it, after any calls. *)
Definition consistent (s : QueueRun) : Prop :=
  stamped (queue s)
  /\ Forall (fun a => (seq_of a < next_seq (queue s))%nat) (removed s)
  /\ Forall (fun a => Forall (fifo_order a) (items (queue s))) (removed s)
  /\ StronglySorted fifo_order (removed s).

(** What holds in addition when no add is late. *)
Definition chronological (s : QueueRun) : Prop :=
  Forall (fun a => Forall (fun p => time_of a <= time_of p) (items (queue s)))
         (removed s)
  /\ StronglySorted Z.le (map time_of (removed s)).

(** ** The simulation driver *)

Record Stats : Type := {
  num_customers : Z;
  total_time : Z;
  max_wait : Z
}.

Definition zero_stats : Stats :=
  {| num_customers := 0; total_time := 0; max_wait := 0 |}.

Record GroceryStoreSimulation : Type := {
  _events : PriorityQueue;
  _store : GroceryStore;
  stats : Stats
}.

(** [GroceryStoreSimulation.__init__], given the store built from the file. *)
Definition init (store : GroceryStore) : GroceryStoreSimulation :=
  {| _events := new_queue; _store := store; stats := zero_stats |}.

(** The local dictionary [customers] of [run]: the keys in insertion order,
    each with its list of timestamps. *)
Definition Customers : Type := list (Customer * list Z).

Fixpoint lookup (c : Customer) (d : Customers) : option (list Z) :=
  match d with
  | [] => None
  | (k, v) :: rest => if Customer_eq_dec c k then Some v else lookup c rest
  end.

(** [customers[c].append(t)] on a key that is present. *)
Fixpoint append_time (c : Customer) (t : Z) (d : Customers) : Customers :=
  match d with
  | [] => []
  | (k, v) :: rest =>
      if Customer_eq_dec c k then (k, v ++ [t]) :: rest
      else (k, v) :: append_time c t rest
  end.

Inductive Exception : Type := KeyError | IndexError | EmptyQueueError.

Inductive Outcome : Type :=
| Returned
| Raised (e : Exception)
| OutOfFuel.

(** What [run] has built up: the driver, the local [customers], and the
    events executed so far, oldest first. *)
Record Frame : Type := {
  self : GroceryStoreSimulation;
  customers : Customers;
  executed : list Event
}.

Definition set_total_time (s : Stats) (t : Z) : Stats :=
  {| num_customers := num_customers s; total_time := t; max_wait := max_wait s |}.

(** Lines 74-78: the arrival is recorded unless the customer is a key. *)
Definition record_arrival (event : Event) (d : Customers) : Customers :=
  match event with
  | CustomerArrival arrive_time customer =>
      match lookup customer d with
      | None => d ++ [(customer, [arrive_time])]
      | Some _ => d
      end
  | _ => d
  end.

(** Lines 80-83: [None] is the [KeyError] of [customers[customer]]. *)
Definition record_completion (event : Event) (d : Customers) : option Customers :=
  match event with
  | CheckoutCompleted checkout_time customer =>
      match lookup customer d with
      | None => None
      | Some _ => Some (append_time customer checkout_time d)
      end
  | _ => Some d
  end.

(** Lines 71-83, for the [event] just removed, [q] being the queue left. *)
Definition handle (f : Frame) (event : Event) (q : PriorityQueue)
  : option Exception * Frame :=
  let (new, store) := do event (_store (self f)) in
  let q := fold_left add new q in
  let d := record_arrival event (customers f) in
  let self' := {| _events := q; _store := store;
                  stats := set_total_time (stats (self f)) (timestamp event) |} in
  match record_completion event d with
  | None =>
      (Some KeyError,
       {| self := self'; customers := d; executed := executed f ++ [event] |})
  | Some d' =>
      (None,
       {| self := self'; customers := d'; executed := executed f ++ [event] |})
  end.

(** The [while] loop of lines 69-83; [fuel] bounds the iterations. *)
Fixpoint drain (fuel : nat) (f : Frame) : Outcome * Frame :=
  if is_empty (_events (self f)) then (Returned, f)
  else
    match fuel with
    | O => (OutOfFuel, f)
    | S fuel' =>
        match remove (_events (self f)) with
        | None => (Raised EmptyQueueError, f)
        | Some (event, q) =>
            match handle f event q with
            | (Some ex, f') => (Raised ex, f')
            | (None, f') => drain fuel' f'
            end
        end
    end.

(** Lines 84-88; [None] is the [IndexError] of [customers[customer][1]]. *)
Fixpoint longest_wait (max_time : Z) (d : Customers) : option Z :=
  match d with
  | [] => Some max_time
  | (_, times) :: rest =>
      match nth_error times 1, nth_error times 0 with
      | Some checkout, Some arrive =>
          let time := checkout - arrive in
          longest_wait (if max_time <? time then time else max_time) rest
      | _, _ => None
      end
  end.

Definition enqueue (q : PriorityQueue) (es : list Event) : PriorityQueue :=
  fold_left add es q.

(** The frame on entry to the loop: line 64 to line 68. *)
Definition start (s : GroceryStoreSimulation) (initial_events : list Event) : Frame :=
  {| self := {| _events := enqueue (_events s) initial_events;
                _store := _store s;
                stats := zero_stats |};
     customers := [];
     executed := [] |}.

(** Lines 84-90. *)
Definition finish (f : Frame) : Outcome * Frame :=
  match longest_wait 0 (customers f) with
  | None => (Raised IndexError, f)
  | Some max_time =>
      (Returned,
       {| self := {| _events := _events (self f);
                     _store := _store (self f);
                     stats := {| num_customers := Z.of_nat (length (customers f));
                                 total_time := total_time (stats (self f));
                                 max_wait := max_time |} |};
          customers := customers f;
          executed := executed f |})
  end.

Definition run (fuel : nat) (s : GroceryStoreSimulation)
  (initial_events : list Event) : Outcome * Frame :=
  match drain fuel (start s initial_events) with
  | (Returned, f) => finish f
  | stopped => stopped
  end.

(** ** What a trace of executed events says about a customer *)

(** The customers of the arrival events, in order. *)
Fixpoint arrivals (trace : list Event) : list Customer :=
  match trace with
  | [] => []
  | CustomerArrival _ c :: rest => c :: arrivals rest
  | _ :: rest => arrivals rest
  end.

(** The timestamps of the checkout completions of [c], in order. *)
Fixpoint checkouts (c : Customer) (trace : list Event) : list Z :=
  match trace with
  | [] => []
  | CheckoutCompleted t k :: rest =>
      if Customer_eq_dec c k then t :: checkouts c rest else checkouts c rest
  | _ :: rest => checkouts c rest
  end.

(** The timestamp of the first arrival of [c], then those of the checkout
    completions of [c] that follow it; [None] when [c] never arrives. *)
Fixpoint history (c : Customer) (trace : list Event) : option (list Z) :=
  match trace with
  | [] => None
  | CustomerArrival t k :: rest =>
      if Customer_eq_dec c k then Some (t :: checkouts c rest) else history c rest
  | _ :: rest => history c rest
  end.

(** The dictionary holds, for each customer, the history of the trace. *)
Definition recorded (d : Customers) (trace : list Event) : Prop :=
  forall c, lookup c d = history c trace.

(** No checkout completion comes before the first arrival of its customer. *)
Definition orderly (trace : list Event) : Prop :=
  forall c,
    match history c trace with
    | None => checkouts c trace = []
    | Some times => tl times = checkouts c trace
    end.

(** The events waiting in the driver's queue. *)
Definition pending (f : Frame) : list Event :=
  map snd (items (_events (self f))).

(** [w] is the largest of 0 and, over the customers with two timestamps or
    more, the second timestamp minus the first. *)
Definition is_max_wait (w : Z) (d : Customers) : Prop :=
  0 <= w
  /\ (forall k a b more, lookup k d = Some (a :: b :: more) -> b - a <= w)
  /\ (w = 0 \/ exists k a b more, lookup k d = Some (a :: b :: more) /\ w = b - a).

(** [t] is the largest timestamp among [es]. *)
Definition is_latest (t : Z) (es : list Event) : Prop :=
  (forall e, In e es -> timestamp e <= t) /\ (exists e, In e es /\ timestamp e = t).

(** No event of [es] spawns events, whatever the store. *)
Definition spawn_nothing (es : list Event) : Prop :=
  forall e, In e es -> forall store, fst (do e store) = [].

(** ** What a trace of executed events says about the store and the queue *)

(** The store after the events of [trace] have acted on it in order. *)
Definition thread (store : GroceryStore) (trace : list Event) : GroceryStore :=
  fold_left (fun st e => snd (do e st)) trace store.

(** The events that the events of [trace] spawn, executed in order from
    [store]. *)
Fixpoint spawned (store : GroceryStore) (trace : list Event) : list Event :=
  match trace with
  | [] => []
  | e :: rest => fst (do e store) ++ spawned (snd (do e store)) rest
  end.

(** No event spawns an event with a timestamp below its own. *)
Definition causal : Prop :=
  forall e store e', In e' (fst (do e store)) -> timestamp e <= timestamp e'.

End Simulation.

Arguments Event Customer : clear implicits.
Arguments Entry Customer : clear implicits.
Arguments PriorityQueue Customer : clear implicits.
Arguments QueueCall Customer : clear implicits.
Arguments QueueRun Customer : clear implicits.
Arguments Customers Customer : clear implicits.
Arguments GroceryStoreSimulation Customer GroceryStore : clear implicits.
Arguments Frame Customer GroceryStore : clear implicits.

(** ** A store in which no event spawns another *)

Module Example.

Definition quiet (e : Event string) (store : unit) : list (Event string) * unit :=
  ([], store).

Definition run_quiet (fuel : nat) (events : list (Event string)) :=
  run string_dec quiet fuel (init tt) events.

Definition A : string := "A"%string.
Definition B : string := "B"%string.

(** Two arrivals, each with its checkout completion. *)
Definition events : list (Event string) :=
  [CustomerArrival 0 A; CheckoutCompleted 5 A;
   CustomerArrival 2 B; CheckoutCompleted 4 B].

(** A customer who arrives and never checks out. *)
Definition alone : list (Event string) := [CustomerArrival 0 A].

(** The same customer arriving twice. *)
Definition twice : list (Event string) :=
  [CustomerArrival 0 A; CustomerArrival 3 A; CheckoutCompleted 5 A].

(** A checkout completion of a customer who has not arrived. *)
Definition early : list (Event string) :=
  [CheckoutCompleted 1 A; CustomerArrival 2 B].

(** A customer who checks out twice. *)
Definition again : list (Event string) :=
  [CustomerArrival 0 A; CheckoutCompleted 3 A; CheckoutCompleted 7 A].

(** An event added after a later one has been removed. *)
Definition late_add : list (QueueCall string) :=
  [Add (CustomerArrival 5 A); Remove; Add (CustomerArrival 3 B); Remove].

(** Two events with the same timestamp, and no late add. *)
Definition tie : list (QueueCall string) :=
  [Add (CustomerArrival 3 A); Add (CustomerArrival 3 B); Remove;
   Add (LineEvent 4 0); Remove; Remove].

(** A store that counts the events it has seen, where an arrival at [t]
    spawns the checkout completion of its customer at [t + 2]. *)
Definition serve (e : Event string) (served : nat) : list (Event string) * nat :=
  match e with
  | CustomerArrival t c => ([CheckoutCompleted (t + 2) c], S served)
  | _ => ([], S served)
  end.

(** Two arrivals, the later one first in the list. *)
Definition arrivals_only : list (Event string) :=
  [CustomerArrival 3 A; CustomerArrival 0 B].

Definition run_serve (fuel : nat) (events : list (Event string)) :=
  run string_dec serve fuel (init 0%nat) events.

End Example.



(** * Properties *)

Section Properties.

Context {Customer : Type}.
Context (Customer_eq_dec : forall a b : Customer, {a = b} + {a <> b}).
Context {GroceryStore : Type}.
Context (do : Event Customer -> GroceryStore -> list (Event Customer) * GroceryStore).

Implicit Types (m least : Entry Customer) (l others : list (Entry Customer)).
Implicit Types (q : PriorityQueue Customer) (e event : Event Customer).

(** *** The queue *)

Lemma entry_leb_true (a b : Entry Customer) : entry_leb a b = true -> comes_before a b.
Proof.
  unfold entry_leb, comes_before. intros H.
  apply orb_true_iff in H. destruct H as [H | H].
  - left. now apply Z.ltb_lt.
  - apply andb_true_iff in H. destruct H as [H1 H2].
    right. split; [now apply Z.eqb_eq | now apply Nat.leb_le].
Qed.

Lemma entry_leb_false (a b : Entry Customer) : entry_leb a b = false -> comes_before b a.
Proof.
  unfold entry_leb, comes_before. intros H.
  apply orb_false_iff in H. destruct H as [H1 H2].
  apply Z.ltb_ge in H1.
  apply andb_false_iff in H2. destruct H2 as [H2 | H2].
  - apply Z.eqb_neq in H2. left. lia.
  - apply Nat.leb_gt in H2.
    destruct (Z.eq_dec (time_of a) (time_of b)); [right | left]; lia.
Qed.

Lemma comes_before_refl (a : Entry Customer) : comes_before a a.
Proof. right. split; [reflexivity | apply Nat.le_refl]. Qed.

Lemma comes_before_trans (a b c : Entry Customer) :
  comes_before a b -> comes_before b c -> comes_before a c.
Proof. unfold comes_before. lia. Qed.

Lemma extract_min_spec l : forall m least others,
  extract_min m l = (least, others) ->
  Permutation (m :: l) (least :: others) /\ Forall (comes_before least) (m :: l).
Proof.
  induction l as [| x r IH]; intros m least others E; simpl in E.
  - inversion E; subst. split; [reflexivity |].
    constructor; [apply comes_before_refl | constructor].
  - destruct (entry_leb m x) eqn:Hmx.
    + destruct (extract_min m r) as [least' others'] eqn:Er.
      inversion E; subst. destruct (IH _ _ _ Er) as [P F].
      inversion F as [| ? ? Fm Fr]; subst. split.
      * rewrite perm_swap, P. apply perm_swap.
      * constructor; [assumption |]. constructor; [| assumption].
        eapply comes_before_trans; [exact Fm | now apply entry_leb_true].
    + destruct (extract_min x r) as [least' others'] eqn:Er.
      inversion E; subst. destruct (IH _ _ _ Er) as [P F].
      inversion F as [| ? ? Fx Fr]; subst. split.
      * rewrite P. apply perm_swap.
      * constructor; [| assumption].
        eapply comes_before_trans; [exact Fx | now apply entry_leb_false].
Qed.

Lemma remove_entry_spec q least q' :
  remove_entry q = Some (least, q') ->
  Permutation (items q) (least :: items q')
  /\ Forall (comes_before least) (items q)
  /\ next_seq q' = next_seq q.
Proof.
  unfold remove_entry. destruct (items q) as [| m l] eqn:Hq; [discriminate |].
  destruct (extract_min m l) as [x others] eqn:E. intros H; inversion H; subst.
  destruct (extract_min_spec _ _ _ _ E). simpl. auto.
Qed.

Lemma remove_entry_nonempty q :
  is_empty q = false -> exists least q', remove_entry q = Some (least, q').
Proof.
  unfold is_empty, remove_entry. destruct (items q) as [| m l]; [discriminate |].
  intros _. destruct (extract_min m l) as [x others]. eauto.
Qed.

Lemma StronglySorted_snoc {T} (R : T -> T -> Prop) (xs : list T) (x : T) :
  StronglySorted R xs -> Forall (fun y => R y x) xs -> StronglySorted R (xs ++ [x]).
Proof.
  induction xs as [| y ys IH]; simpl; intros S F.
  - repeat constructor.
  - inversion S; subst. inversion F; subst. constructor; [auto |].
    apply Forall_app. split; [assumption | repeat constructor; assumption].
Qed.

Lemma StronglySorted_nth {T} (R : T -> T -> Prop) (xs : list T) :
  StronglySorted R xs ->
  forall i j x y, (i < j)%nat ->
    nth_error xs i = Some x -> nth_error xs j = Some y -> R x y.
Proof.
  induction 1 as [| z zs S IH F]; intros i j x y Hij Hi Hj.
  - destruct i; discriminate.
  - destruct j as [| j]; [lia |]. simpl in Hj. destruct i as [| i]; simpl in Hi.
    + inversion Hi; subst. rewrite Forall_forall in F.
      apply F. eapply nth_error_In; eassumption.
    + eapply IH; [| eassumption | eassumption]. lia.
Qed.

Lemma stamped_add q e : stamped q -> stamped (add q e).
Proof.
  intros [N F]. unfold stamped, add; simpl. split.
  - rewrite map_app. simpl.
    apply Permutation_NoDup with (l := next_seq q :: map seq_of (items q)).
    + apply Permutation_cons_append.
    + constructor; [| assumption].
      intros Hin. apply in_map_iff in Hin. destruct Hin as [a [Ha Hin]].
      rewrite Forall_forall in F. specialize (F _ Hin). lia.
  - apply Forall_app. split.
    + eapply Forall_impl; [| exact F]. simpl. intros; lia.
    + constructor; [| constructor]. unfold seq_of; simpl. lia.
Qed.

Lemma stamped_remove q least q' :
  stamped q -> remove_entry q = Some (least, q') ->
  stamped q'
  /\ (seq_of least < next_seq q)%nat
  /\ Forall (fun p => comes_before least p /\ seq_of least <> seq_of p) (items q').
Proof.
  intros [N F] R. destruct (remove_entry_spec _ _ _ R) as [P [M Hn]].
  assert (N' : NoDup (map seq_of (least :: items q'))).
  { eapply Permutation_NoDup; [| exact N]. now apply Permutation_map. }
  assert (F' : Forall (fun a => (seq_of a < next_seq q)%nat) (least :: items q')).
  { eapply Permutation_Forall; eassumption. }
  assert (M' : Forall (comes_before least) (least :: items q')).
  { eapply Permutation_Forall; eassumption. }
  simpl in N'. inversion N' as [| ? ? Hnotin N'']; subst.
  inversion F'; subst. inversion M'; subst.
  split; [| split].
  - split; [assumption | now rewrite Hn].
  - assumption.
  - rewrite Forall_forall in *. intros p Hp. split; [auto |].
    intros Heq. apply Hnotin. rewrite Heq. now apply in_map.
Qed.

Lemma consistent_fresh : consistent (@fresh_run Customer).
Proof.
  unfold consistent, stamped; simpl.
  repeat split; constructor.
Qed.

Lemma consistent_call (s s' : QueueRun Customer) c :
  consistent s -> call s c = Some s' -> consistent s'.
Proof.
  intros (W & B & O & S) H. destruct c as [e |]; simpl in H.
  - inversion H; subst; clear H. unfold consistent; simpl.
    split; [now apply stamped_add |]. split; [| split; [| assumption]].
    + eapply Forall_impl; [| exact B]. simpl. intros; lia.
    + rewrite Forall_forall in *. intros a Ha.
      apply Forall_app. split; [now apply O |].
      constructor; [| constructor]. unfold fifo_order. intros _.
      specialize (B _ Ha). unfold seq_of at 2. simpl. exact B.
  - destruct (remove_entry (queue s)) as [[least q'] |] eqn:R; [| discriminate].
    inversion H; subst; clear H.
    destruct (stamped_remove _ _ _ W R) as (W' & L & D).
    destruct (remove_entry_spec _ _ _ R) as (P & M & Hn).
    unfold consistent; simpl. split; [assumption |].
    assert (O' : Forall (fun a => Forall (fifo_order a) (least :: items q')) (removed s)).
    { eapply Forall_impl; [| exact O]. simpl. intros a Fa.
      eapply Permutation_Forall; eassumption. }
    split; [| split].
    + apply Forall_app. split.
      * eapply Forall_impl; [| exact B]. simpl. intros; lia.
      * constructor; [| constructor]. lia.
    + apply Forall_app. split.
      * eapply Forall_impl; [| exact O']. simpl. intros a Fa. now inversion Fa.
      * constructor; [| constructor]. eapply Forall_impl; [| exact D]. simpl.
        unfold fifo_order, comes_before. intros p [Hc Hne] Ht. lia.
    + apply StronglySorted_snoc; [assumption |].
      eapply Forall_impl; [| exact O']. simpl. intros a Fa. now inversion Fa.
Qed.

Lemma consistent_calls cs : forall s : QueueRun Customer,
  consistent s -> consistent (calls s cs).
Proof.
  induction cs as [| c rest IH]; intros s Hs; simpl; [assumption |].
  destruct (call s c) as [s' |] eqn:E; [| assumption].
  apply IH. eapply consistent_call; eassumption.
Qed.

Lemma chronological_fresh : chronological (@fresh_run Customer).
Proof. unfold chronological; simpl. split; constructor. Qed.

Lemma chronological_call (s s' : QueueRun Customer) c :
  chronological s -> in_time s c = true -> call s c = Some s' -> chronological s'.
Proof.
  intros (K & S) T H. destruct c as [e |]; simpl in H, T.
  - inversion H; subst; clear H. unfold chronological; simpl.
    split; [| assumption].
    rewrite forallb_forall in T. rewrite Forall_forall in *. intros a Ha.
    apply Forall_app. split; [now apply K |].
    constructor; [| constructor]. unfold time_of at 2. simpl.
    apply Z.leb_le. now apply T.
  - destruct (remove_entry (queue s)) as [[least q'] |] eqn:R; [| discriminate].
    inversion H; subst; clear H.
    destruct (remove_entry_spec _ _ _ R) as (P & M & Hn).
    assert (K' : Forall (fun a => Forall (fun p => time_of a <= time_of p)
                                         (least :: items q')) (removed s)).
    { eapply Forall_impl; [| exact K]. simpl. intros a Fa.
      eapply Permutation_Forall; eassumption. }
    assert (M' : Forall (comes_before least) (least :: items q')).
    { eapply Permutation_Forall; eassumption. }
    unfold chronological; simpl. split.
    + apply Forall_app. split.
      * eapply Forall_impl; [| exact K']. simpl. intros a Fa. now inversion Fa.
      * constructor; [| constructor]. inversion M'; subst.
        eapply Forall_impl; [| eassumption]. simpl.
        unfold comes_before. intros; lia.
    + rewrite map_app. simpl. apply StronglySorted_snoc; [assumption |].
      apply Forall_map.
      eapply Forall_impl; [| exact K']. simpl. intros a Fa. now inversion Fa.
Qed.

Lemma chronological_calls cs : forall s : QueueRun Customer,
  chronological s -> adds_in_time s cs = true -> chronological (calls s cs).
Proof.
  induction cs as [| c rest IH]; intros s Hs T; simpl in *; [assumption |].
  apply andb_true_iff in T. destruct T as [T1 T2].
  destruct (call s c) as [s' |] eqn:E; [| assumption].
  apply IH; [| assumption]. eapply chronological_call; eassumption.
Qed.

(** *** The dictionary of customers *)

Lemma lookup_snoc c k v (d : Customers Customer) :
  lookup Customer_eq_dec c (d ++ [(k, v)]) =
  match lookup Customer_eq_dec c d with
  | Some x => Some x
  | None => if Customer_eq_dec c k then Some v else None
  end.
Proof.
  induction d as [| [k' v'] rest IH]; simpl; [reflexivity |].
  destruct (Customer_eq_dec c k'); [reflexivity | exact IH].
Qed.

Lemma lookup_append_time c k t (d : Customers Customer) :
  lookup Customer_eq_dec c (append_time Customer_eq_dec k t d) =
  if Customer_eq_dec c k
  then option_map (fun v => v ++ [t]) (lookup Customer_eq_dec c d)
  else lookup Customer_eq_dec c d.
Proof.
  induction d as [| [k' v'] rest IH]; simpl.
  - now destruct (Customer_eq_dec c k).
  - destruct (Customer_eq_dec k k') as [Ekk | Nkk]; simpl.
    + subst k'. destruct (Customer_eq_dec c k); reflexivity.
    + destruct (Customer_eq_dec c k') as [Eck | Nck].
      * subst k'. destruct (Customer_eq_dec c k); [congruence | reflexivity].
      * exact IH.
Qed.

Lemma keys_append_time k t (d : Customers Customer) :
  map fst (append_time Customer_eq_dec k t d) = map fst d.
Proof.
  induction d as [| [k' v'] rest IH]; simpl; [reflexivity |].
  destruct (Customer_eq_dec k k'); simpl; [reflexivity | now rewrite IH].
Qed.

Lemma lookup_None c (d : Customers Customer) :
  lookup Customer_eq_dec c d = None <-> ~ In c (map fst d).
Proof.
  induction d as [| [k v] rest IH]; simpl; [tauto |].
  destruct (Customer_eq_dec c k) as [E | N].
  - split; [discriminate | intros H; exfalso; apply H; left; congruence].
  - rewrite IH. split; [intros H [E | I]; [congruence | tauto] | tauto].
Qed.

Lemma lookup_In k v (d : Customers Customer) :
  NoDup (map fst d) -> In (k, v) d -> lookup Customer_eq_dec k d = Some v.
Proof.
  induction d as [| [k' v'] rest IH]; simpl; intros N I; [contradiction |].
  inversion N as [| ? ? Hnotin N']; subst.
  destruct I as [E | I].
  - inversion E; subst. destruct (Customer_eq_dec k k); [reflexivity | congruence].
  - destruct (Customer_eq_dec k k') as [E | _]; [| auto].
    subst k'. exfalso. apply Hnotin. apply in_map_iff. exists (k, v). auto.
Qed.

Lemma lookup_Some_In k v (d : Customers Customer) :
  lookup Customer_eq_dec k d = Some v -> In (k, v) d.
Proof.
  induction d as [| [k' v'] rest IH]; simpl; [discriminate |].
  destruct (Customer_eq_dec k k') as [E | N]; intros H.
  - inversion H; subst. now left.
  - right. auto.
Qed.

(** *** Traces *)

Lemma arrivals_app (t1 t2 : list (Event Customer)) :
  arrivals (t1 ++ t2) = arrivals t1 ++ arrivals t2.
Proof.
  induction t1 as [| [t c | t c | t n] rest IH]; simpl; congruence.
Qed.

Lemma checkouts_app c (t1 t2 : list (Event Customer)) :
  checkouts Customer_eq_dec c (t1 ++ t2) =
  checkouts Customer_eq_dec c t1 ++ checkouts Customer_eq_dec c t2.
Proof.
  induction t1 as [| [t k | t k | t n] rest IH]; simpl; try congruence.
  destruct (Customer_eq_dec c k); simpl; congruence.
Qed.

Lemma history_app c (t1 t2 : list (Event Customer)) :
  history Customer_eq_dec c (t1 ++ t2) =
  match history Customer_eq_dec c t1 with
  | Some times => Some (times ++ checkouts Customer_eq_dec c t2)
  | None => history Customer_eq_dec c t2
  end.
Proof.
  induction t1 as [| [t k | t k | t n] rest IH]; simpl; try assumption.
  - reflexivity.
  - destruct (Customer_eq_dec c k); [| assumption].
    now rewrite checkouts_app.
Qed.

Lemma history_None c (trace : list (Event Customer)) :
  history Customer_eq_dec c trace = None <-> ~ In c (arrivals trace).
Proof.
  induction trace as [| [t k | t k | t n] rest IH]; simpl; try assumption.
  - tauto.
  - destruct (Customer_eq_dec c k) as [E | N].
    + split; [discriminate | intros H; exfalso; apply H; left; congruence].
    + rewrite IH. split; [intros H [E | I]; [congruence | tauto] | tauto].
Qed.

Lemma history_Some c (trace : list (Event Customer)) times :
  history Customer_eq_dec c trace = Some times ->
  exists t later,
    times = t :: later
    /\ (length later <= length (checkouts Customer_eq_dec c trace))%nat.
Proof.
  induction trace as [| [t k | t k | t n] rest IH]; simpl; try assumption.
  - discriminate.
  - destruct (Customer_eq_dec c k) as [E | N]; [| assumption].
    intros H; inversion H; subst. eauto.
  - intros H. destruct (IH H) as (t0 & later & E & L).
    exists t0, later. split; [assumption |].
    destruct (Customer_eq_dec c k); simpl; lia.
Qed.

Lemma orderly_snoc (trace : list (Event Customer)) e :
  orderly Customer_eq_dec trace ->
  (forall t c, e = CheckoutCompleted t c -> history Customer_eq_dec c trace <> None) ->
  orderly Customer_eq_dec (trace ++ [e]).
Proof.
  intros O H c. rewrite history_app, checkouts_app. specialize (O c).
  destruct (history Customer_eq_dec c trace) as [times |] eqn:E.
  - destruct (history_Some _ _ _ E) as (t0 & later & -> & _).
    simpl in *. now rewrite O.
  - rewrite O. destruct e as [t k | t k | t n]; simpl; try reflexivity.
    + destruct (Customer_eq_dec c k); reflexivity.
    + destruct (Customer_eq_dec c k) as [-> | N]; [| reflexivity].
      exfalso. now apply (H t k).
Qed.

Lemma orderly_arrived (pre post : list (Event Customer)) t c :
  orderly Customer_eq_dec (pre ++ CheckoutCompleted t c :: post) ->
  In c (arrivals pre).
Proof.
  intros O. destruct (in_dec Customer_eq_dec c (arrivals pre)) as [I | N]; [assumption |].
  exfalso. specialize (O c). apply history_None in N.
  rewrite history_app, N, checkouts_app in O. simpl in O.
  destruct (Customer_eq_dec c c) as [_ | F]; [| congruence].
  destruct (history Customer_eq_dec c post) as [times |] eqn:E.
  - destruct (history_Some _ _ _ E) as (t0 & later & -> & L). simpl in O.
    apply (f_equal (@length Z)) in O. rewrite length_app in O. simpl in O. lia.
  - destruct (checkouts Customer_eq_dec c pre); discriminate.
Qed.

(** *** One iteration of the loop *)

Lemma bookkeeping e (d : Customers Customer) trace :
  recorded Customer_eq_dec d trace ->
  match record_completion Customer_eq_dec e (record_arrival Customer_eq_dec e d) with
  | Some d' =>
      recorded Customer_eq_dec d' (trace ++ [e])
      /\ (forall t c, e = CheckoutCompleted t c ->
                      history Customer_eq_dec c trace <> None)
  | None =>
      recorded Customer_eq_dec (record_arrival Customer_eq_dec e d) (trace ++ [e])
      /\ exists t c, e = CheckoutCompleted t c
                     /\ history Customer_eq_dec c trace = None
  end.
Proof.
  intros H. destruct e as [t k | t k | t n]; simpl.
  - split; [| discriminate]. intros c. rewrite history_app, <- (H c). simpl.
    destruct (lookup Customer_eq_dec k d) as [v |] eqn:Ek.
    + destruct (lookup Customer_eq_dec c d) eqn:Ec; [now rewrite app_nil_r |].
      destruct (Customer_eq_dec c k); [congruence | reflexivity].
    + rewrite lookup_snoc.
      destruct (lookup Customer_eq_dec c d); [now rewrite app_nil_r | reflexivity].
  - destruct (lookup Customer_eq_dec k d) as [v |] eqn:Ek.
    + split.
      * intros c. rewrite lookup_append_time, history_app, <- (H c). simpl.
        destruct (Customer_eq_dec c k) as [-> | N].
        -- now rewrite Ek.
        -- destruct (lookup Customer_eq_dec c d); [now rewrite app_nil_r | reflexivity].
      * intros t' c' E. inversion E; subst. rewrite <- (H c'). congruence.
    + split.
      * intros c. rewrite history_app, <- (H c). simpl.
        destruct (lookup Customer_eq_dec c d) eqn:Ec; [| reflexivity].
        destruct (Customer_eq_dec c k); [congruence | now rewrite app_nil_r].
      * exists t, k. split; [reflexivity |]. now rewrite <- (H k).
  - split; [| discriminate]. intros c. rewrite history_app, <- (H c). simpl.
    destruct (lookup Customer_eq_dec c d); [now rewrite app_nil_r | reflexivity].
Qed.

Lemma bookkeeping_keys e (d : Customers Customer) :
  NoDup (map fst d) ->
  NoDup (map fst (record_arrival Customer_eq_dec e d))
  /\ forall d', record_completion Customer_eq_dec e
                  (record_arrival Customer_eq_dec e d) = Some d' ->
                NoDup (map fst d').
Proof.
  intros N.
  assert (N1 : NoDup (map fst (record_arrival Customer_eq_dec e d))).
  { destruct e as [t k | t k | t n]; simpl; try assumption.
    destruct (lookup Customer_eq_dec k d) eqn:Ek; [assumption |].
    rewrite map_app. simpl.
    apply Permutation_NoDup with (l := k :: map fst d).
    - apply Permutation_cons_append.
    - constructor; [now apply lookup_None | assumption]. }
  split; [assumption |]. intros d' H.
  destruct e as [t k | t k | t n]; simpl in H.
  - inversion H; subst. exact N1.
  - simpl in N1. destruct (lookup Customer_eq_dec k d); [| discriminate].
    inversion H; subst. now rewrite keys_append_time.
  - inversion H; subst. exact N1.
Qed.

Lemma handle_frame (f f' : Frame Customer GroceryStore) e q ex :
  handle Customer_eq_dec do f e q = (ex, f') ->
  executed f' = executed f ++ [e]
  /\ stats (self f') = set_total_time (stats (self f)) (timestamp e)
  /\ _events (self f') = enqueue q (fst (do e (_store (self f))))
  /\ _store (self f') = snd (do e (_store (self f)))
  /\ match ex with
     | None => Some (customers f')
     | Some _ => None
     end = record_completion Customer_eq_dec e
             (record_arrival Customer_eq_dec e (customers f))
  /\ (ex = None \/
      ex = Some KeyError
      /\ customers f' = record_arrival Customer_eq_dec e (customers f)).
Proof.
  unfold handle. destruct (do e (_store (self f))) as [new store].
  destruct (record_completion Customer_eq_dec e
              (record_arrival Customer_eq_dec e (customers f)));
    intros H; inversion H; subst; simpl; auto 10.
Qed.

Lemma remove_Some q e q' :
  remove q = Some (e, q') ->
  exists least, remove_entry q = Some (least, q') /\ e = snd least.
Proof.
  unfold remove. destruct (remove_entry q) as [[least q''] |]; [| discriminate].
  intros H; inversion H; subst. eauto.
Qed.

(** *** The loop *)

Lemma drain_sound fuel : forall (f f' : Frame Customer GroceryStore) o,
  drain Customer_eq_dec do fuel f = (o, f') ->
  recorded Customer_eq_dec (customers f) (executed f) ->
  NoDup (map fst (customers f)) ->
  orderly Customer_eq_dec (executed f) ->
  recorded Customer_eq_dec (customers f') (executed f')
  /\ NoDup (map fst (customers f'))
  /\ (o = Returned \/ o = OutOfFuel \/ o = Raised KeyError)
  /\ (o = Returned -> is_empty (_events (self f')) = true)
  /\ (o <> Raised KeyError -> orderly Customer_eq_dec (executed f'))
  /\ (o = Raised KeyError ->
      exists pre t c, executed f' = pre ++ [CheckoutCompleted t c]
                      /\ orderly Customer_eq_dec pre /\ ~ In c (arrivals pre))
  /\ num_customers (stats (self f')) = num_customers (stats (self f))
  /\ max_wait (stats (self f')) = max_wait (stats (self f)).
Proof.
  induction fuel as [| fuel IH]; intros f f' o D R N O; simpl in D.
  - destruct (is_empty (_events (self f))) eqn:E; inversion D; subst;
      repeat split; auto; try congruence; discriminate.
  - destruct (is_empty (_events (self f))) eqn:E.
    { inversion D; subst. repeat split; auto; try congruence; discriminate. }
    destruct (remove (_events (self f))) as [[event q] |] eqn:Rm.
    2:{ destruct (remove_entry_nonempty _ E) as (least & q' & Hr).
        unfold remove in Rm. rewrite Hr in Rm. discriminate. }
    destruct (handle Customer_eq_dec do f event q) as [ex f1] eqn:H.
    destruct (handle_frame _ _ _ _ _ H) as (Hx & Hs & _ & _ & Hb & Hk).
    pose proof (bookkeeping event _ _ R) as B.
    pose proof (bookkeeping_keys event _ N) as [K1 K2].
    destruct ex as [ex |].
    + destruct Hk as [Hk | [Hk Hd]]; [discriminate |].
      inversion Hk; subst ex. inversion D; subst o f'. clear D.
      rewrite <- Hb in B. destruct B as [B (t & c & Ee & Eh)].
      rewrite Hx, Hd, Hs. repeat split; auto; try discriminate; try congruence.
      intros _. exists (executed f), t, c. subst event.
      repeat split; auto. now apply history_None.
    + rewrite <- Hb in B. destruct B as [B1 B2].
      assert (O1 : orderly Customer_eq_dec (executed f1)).
      { rewrite Hx. now apply orderly_snoc. }
      rewrite <- Hx in B1.
      destruct (IH _ _ _ D B1 (K2 _ (eq_sym Hb)) O1)
        as (I1 & I2 & I3 & I4 & I5 & I6 & I7 & I8).
      rewrite Hs in I7, I8. simpl in I7, I8. repeat split; assumption.
Qed.

(** *** After the loop *)

Lemma longest_wait_None (d : Customers Customer) : forall acc,
  longest_wait acc d = None <-> Exists (fun kv => (length (snd kv) < 2)%nat) d.
Proof.
  induction d as [| [k times] rest IH]; intros acc; simpl.
  - split; [discriminate | intros H; inversion H].
  - destruct times as [| a [| b more]]; simpl.
    + split; [intros _; left; simpl; lia | reflexivity].
    + split; [intros _; left; simpl; lia | reflexivity].
    + rewrite IH. split; [now right |].
      intros H. inversion H as [? ? L | ? ? L]; subst; [simpl in L; lia | assumption].
Qed.

Lemma longest_wait_Some (d : Customers Customer) : forall acc w,
  longest_wait acc d = Some w ->
  acc <= w
  /\ Forall (fun kv => forall a b more, snd kv = a :: b :: more -> b - a <= w) d
  /\ (w = acc
      \/ Exists (fun kv => exists a b more, snd kv = a :: b :: more /\ w = b - a) d).
Proof.
  induction d as [| [k times] rest IH]; intros acc w; simpl.
  - intros H; inversion H; subst. split; [lia |]. split; [constructor | now left].
  - destruct times as [| a [| b more]]; simpl; try discriminate.
    intros H. destruct (IH _ _ H) as (L & F & M).
    destruct (Z.ltb_spec acc (b - a)) as [Hlt | Hge].
    + split; [lia |]. split.
      * constructor; [| assumption]. simpl. intros ? ? ? E; inversion E; subst. lia.
      * right. destruct M as [M | M]; [| now right].
        left. simpl. eauto.
    + split; [lia |]. split.
      * constructor; [| assumption]. simpl. intros ? ? ? E; inversion E; subst. lia.
      * destruct M as [M | M]; [now left | right; now right].
Qed.

Lemma longest_wait_is_max (d : Customers Customer) w :
  NoDup (map fst d) -> longest_wait 0 d = Some w -> is_max_wait Customer_eq_dec w d.
Proof.
  intros N H. destruct (longest_wait_Some _ _ _ H) as (L & F & M).
  split; [assumption |]. split.
  - intros k a b more E. apply lookup_Some_In in E.
    rewrite Forall_forall in F. now apply (F _ E a b more).
  - destruct M as [M | M]; [now left | right].
    apply Exists_exists in M. destruct M as ([k times] & I & a & b & more & E & Hw).
    simpl in E. subst times. exists k, a, b, more. split; [| assumption].
    now apply lookup_In.
Qed.

Lemma finish_frame (f f' : Frame Customer GroceryStore) o :
  finish f = (o, f') ->
  executed f' = executed f
  /\ customers f' = customers f
  /\ _events (self f') = _events (self f)
  /\ total_time (stats (self f')) = total_time (stats (self f))
  /\ (o = Returned
      /\ longest_wait 0 (customers f) = Some (max_wait (stats (self f')))
      /\ num_customers (stats (self f')) = Z.of_nat (length (customers f))
      \/ o = Raised IndexError /\ longest_wait 0 (customers f) = None /\ f' = f).
Proof.
  unfold finish. destruct (longest_wait 0 (customers f)) as [w |];
    intros H; inversion H; subst; simpl; auto 10.
Qed.

(** [run] is the loop, then [finish] when the loop has drained the queue. *)
Lemma run_stages fuel (s : GroceryStoreSimulation Customer GroceryStore) evs o f' :
  run Customer_eq_dec do fuel s evs = (o, f') ->
  exists o0 f0,
    drain Customer_eq_dec do fuel (start s evs) = (o0, f0)
    /\ (o0 = Returned /\ finish f0 = (o, f')
        \/ o0 <> Returned /\ o = o0 /\ f' = f0).
Proof.
  unfold run. destruct (drain Customer_eq_dec do fuel (start s evs)) as [o0 f0].
  intros H. exists o0, f0. split; [reflexivity |].
  destruct o0; [left; auto | right | right]; inversion H; subst;
    repeat split; discriminate.
Qed.

Lemma start_sound (s : GroceryStoreSimulation Customer GroceryStore) evs :
  recorded Customer_eq_dec (customers (start s evs)) (executed (start s evs))
  /\ NoDup (map fst (customers (start s evs)))
  /\ orderly Customer_eq_dec (executed (start s evs)).
Proof.
  simpl. split; [| split].
  - intros c. reflexivity.
  - constructor.
  - intros c. reflexivity.
Qed.

(** What every run leaves behind, however it ends. *)
Lemma run_sound fuel (s : GroceryStoreSimulation Customer GroceryStore) evs o f' :
  run Customer_eq_dec do fuel s evs = (o, f') ->
  recorded Customer_eq_dec (customers f') (executed f')
  /\ NoDup (map fst (customers f'))
  /\ o <> Raised EmptyQueueError
  /\ (o <> Raised KeyError -> orderly Customer_eq_dec (executed f'))
  /\ (o = Raised KeyError ->
      exists pre t c, executed f' = pre ++ [CheckoutCompleted t c]
                      /\ orderly Customer_eq_dec pre /\ ~ In c (arrivals pre))
  /\ (o = Returned ->
      longest_wait 0 (customers f') = Some (max_wait (stats (self f')))
      /\ num_customers (stats (self f')) = Z.of_nat (length (customers f'))
      /\ is_empty (_events (self f')) = true)
  /\ (o <> Returned ->
      max_wait (stats (self f')) = 0 /\ num_customers (stats (self f')) = 0).
Proof.
  intros H. destruct (run_stages _ _ _ _ _ H) as (o0 & f0 & D & C).
  destruct (start_sound s evs) as (R0 & N0 & O0).
  destruct (drain_sound _ _ _ _ D R0 N0 O0)
    as (I1 & I2 & I3 & I4 & I5 & I6 & I7 & I8).
  simpl in I7, I8.
  destruct C as [[E F] | (NE & -> & ->)].
  - subst o0. destruct (finish_frame _ _ _ F) as (Hx & Hc & Hq & _ & Hf).
    rewrite Hx, Hc, Hq.
    assert (O1 : orderly Customer_eq_dec (executed f0)) by (apply I5; discriminate).
    destruct Hf as [(-> & Hw & Hn) | (-> & Hw & ->)];
      repeat split; intros; auto; try discriminate; try congruence.
  - destruct I3 as [-> | [-> | ->]];
      repeat split; intros; auto; try discriminate; try congruence.
Qed.

(** *** Draining events that spawn nothing *)

Lemma drain_quiet evs fuel : forall (f f' : Frame Customer GroceryStore) o,
  spawn_nothing do evs ->
  drain Customer_eq_dec do fuel f = (o, f') ->
  Permutation (executed f ++ pending f) evs ->
  (forall x p, In x (executed f) -> In p (pending f) -> timestamp x <= timestamp p) ->
  (length (pending f) <= fuel)%nat ->
  o <> OutOfFuel
  /\ (o <> Raised KeyError ->
      Permutation (executed f') evs
      /\ (f' = f \/ is_latest (total_time (stats (self f'))) (executed f'))).
Proof.
  induction fuel as [| fuel IH]; intros f f' o Q D P B L; simpl in D.
  - unfold pending in L, P. unfold is_empty in D.
    destruct (items (_events (self f))) as [| x xs]; [| simpl in L; lia].
    inversion D; subst o f'. simpl in P. rewrite app_nil_r in P.
    split; [discriminate | auto].
  - destruct (is_empty (_events (self f))) eqn:E.
    { inversion D; subst o f'. unfold is_empty in E. unfold pending in P.
      destruct (items (_events (self f))); [| discriminate].
      simpl in P. rewrite app_nil_r in P. split; [discriminate | auto]. }
    destruct (remove (_events (self f))) as [[event q] |] eqn:Rm.
    2:{ destruct (remove_entry_nonempty _ E) as (least & q' & Hr).
        unfold remove in Rm. rewrite Hr in Rm. discriminate. }
    destruct (remove_Some _ _ _ Rm) as (least & Hr & ->).
    destruct (remove_entry_spec _ _ _ Hr) as (Pq & Mq & _).
    assert (Pp : Permutation (pending f) (snd least :: map snd (items q))).
    { unfold pending. now apply (Permutation_map snd) in Pq. }
    assert (Hin : In (snd least) evs).
    { eapply Permutation_in; [exact P |]. apply in_or_app. right.
      eapply Permutation_in; [symmetry; exact Pp |]. now left. }
    destruct (handle Customer_eq_dec do f (snd least) q) as [ex f1] eqn:H.
    destruct (handle_frame _ _ _ _ _ H) as (Hx & Hs & Hq & _ & _ & Hk).
    rewrite (Q _ Hin) in Hq. simpl in Hq.
    assert (Hp1 : pending f1 = map snd (items q)).
    { unfold pending. now rewrite Hq. }
    destruct ex as [ex |].
    { destruct Hk as [Hk | [Hk _]]; [discriminate |]. inversion Hk; subst ex.
      inversion D; subst o f'. split; [discriminate | congruence]. }
    assert (B1 : forall x p, In x (executed f1) -> In p (pending f1) ->
                             timestamp x <= timestamp p).
    { intros x p Ix Ip. rewrite Hx in Ix. rewrite Hp1 in Ip.
      apply in_app_or in Ix. destruct Ix as [Ix | [<- | []]].
      - apply B; [assumption |].
        eapply Permutation_in; [symmetry; exact Pp |]. now right.
      - apply in_map_iff in Ip. destruct Ip as (pe & <- & Ipe).
        assert (C : comes_before least pe).
        { rewrite Forall_forall in Mq. apply Mq.
          eapply Permutation_in; [symmetry; exact Pq |]. now right. }
        unfold comes_before, time_of in C. lia. }
    assert (T1 : is_latest (total_time (stats (self f1))) (executed f1)).
    { rewrite Hs, Hx. simpl. split.
      - intros x Ix. apply in_app_or in Ix. destruct Ix as [Ix | [<- | []]]; [| lia].
        apply B; [assumption |].
        eapply Permutation_in; [symmetry; exact Pp |]. now left.
      - exists (snd least). split; [| reflexivity].
        apply in_or_app. right. now left. }
    assert (P1 : Permutation (executed f1 ++ pending f1) evs).
    { rewrite Hx, Hp1, <- app_assoc. simpl.
      rewrite <- P. apply Permutation_app_head. now symmetry. }
    assert (L1 : (length (pending f1) <= fuel)%nat).
    { rewrite Hp1. apply Permutation_length in Pp. simpl in Pp. lia. }
    destruct (IH _ _ _ Q D P1 B1 L1) as (I1 & I2).
    split; [assumption |]. intros NK. destruct (I2 NK) as (I3 & [-> | I4]); auto.
Qed.

Lemma enqueue_pending evs : forall q,
  map snd (items (enqueue q evs)) = map snd (items q) ++ evs.
Proof.
  unfold enqueue. induction evs as [| e rest IH]; intros q; simpl.
  - now rewrite app_nil_r.
  - rewrite IH. simpl. rewrite map_app, <- app_assoc. reflexivity.
Qed.

Lemma is_latest_perm t (es es' : list (Event Customer)) :
  Permutation es es' -> is_latest t es -> is_latest t es'.
Proof.
  intros P [U [e [I E]]]. split.
  - intros x Ix. apply U. eapply Permutation_in; [symmetry; exact P | exact Ix].
  - exists e. split; [eapply Permutation_in; eassumption | assumption].
Qed.

(** One iteration on an event that spawns nothing and finds its customer. *)
Lemma drain_step fuel (f : Frame Customer GroceryStore) e q d' :
  is_empty (_events (self f)) = false ->
  remove (_events (self f)) = Some (e, q) ->
  fst (do e (_store (self f))) = [] ->
  record_completion Customer_eq_dec e
    (record_arrival Customer_eq_dec e (customers f)) = Some d' ->
  drain Customer_eq_dec do (S fuel) f
  = drain Customer_eq_dec do fuel
      {| self := {| _events := q;
                    _store := snd (do e (_store (self f)));
                    stats := set_total_time (stats (self f)) (timestamp e) |};
         customers := d';
         executed := executed f ++ [e] |}.
Proof.
  intros E R Q B. simpl. rewrite E, R. unfold handle.
  destruct (do e (_store (self f))) as [new store]. simpl in Q. subst new.
  rewrite B. reflexivity.
Qed.

(** ** The claims *)

(** C1 (amended).  From a new queue and after any sequence of [add] and
    [remove] calls: of two removed events with the same timestamp, the one
    added earlier was removed earlier; and the removed events are in
    non-decreasing order of timestamp provided no event was added with a
    timestamp below that of an event already removed (as when all the adds
    come before the removes). *)
Theorem removal_order (cs : list (QueueCall Customer)) :
  let out := removed (calls fresh_run cs) in
  (forall i j a b,
      nth_error out i = Some a -> nth_error out j = Some b ->
      time_of a = time_of b -> (seq_of a < seq_of b)%nat -> (i < j)%nat)
  /\ (adds_in_time fresh_run cs = true -> StronglySorted Z.le (map time_of out)).
Proof.
  intros out. split.
  - intros i j a b Hi Hj Ht Hs.
    destruct (consistent_calls cs _ consistent_fresh) as (_ & _ & _ & S).
    fold out in S.
    destruct (Nat.lt_trichotomy i j) as [L | [-> | L]]; [assumption | |].
    + rewrite Hi in Hj. inversion Hj; subst. lia.
    + pose proof (StronglySorted_nth _ _ S _ _ _ _ L Hj Hi) as F.
      unfold fifo_order in F. symmetry in Ht. specialize (F Ht). lia.
  - intros T. now apply (chronological_calls cs _ chronological_fresh T).
Qed.

(** C3 (amended).  Once the loop has drained the queue: if some customer
    has an arrival but no checkout completion among the executed events, the
    computation of the statistics raises [IndexError] instead of leaving
    that customer out, and [max_wait] and [num_customers] keep the 0 of the
    reset; if every customer who arrived has a checkout completion, the
    computation returns and [max_wait] is the largest of 0 and the waits
    (first completion minus arrival); with no customer at all, [max_wait]
    is 0. *)
Theorem incomplete_customer fuel
  (s : GroceryStoreSimulation Customer GroceryStore) evs :
  let r := run Customer_eq_dec do fuel s evs in
  let trace := executed (snd r) in
  fst (drain Customer_eq_dec do fuel (start s evs)) = Returned ->
  ((exists c, In c (arrivals trace) /\ checkouts Customer_eq_dec c trace = []) ->
   fst r = Raised IndexError
   /\ max_wait (stats (self (snd r))) = 0
   /\ num_customers (stats (self (snd r))) = 0)
  /\ ((forall c, In c (arrivals trace) -> checkouts Customer_eq_dec c trace <> []) ->
      fst r = Returned
      /\ is_max_wait Customer_eq_dec (max_wait (stats (self (snd r))))
                     (customers (snd r)))
  /\ (arrivals trace = [] -> max_wait (stats (self (snd r))) = 0).
Proof.
  intros r trace HD. subst trace r.
  destruct (run Customer_eq_dec do fuel s evs) as [o f'] eqn:E. simpl.
  destruct (run_stages _ _ _ _ _ E) as (o0 & f0 & D & C).
  rewrite D in HD. simpl in HD. subst o0.
  destruct C as [[_ F] | [NE _]]; [| congruence].
  destruct (run_sound _ _ _ _ _ E) as (R & N & _ & O & _ & OK & KO).
  destruct (finish_frame _ _ _ F) as (_ & Hc & _ & _ & Hf).
  assert (Or : orderly Customer_eq_dec (executed f')).
  { apply O. destruct Hf as [(-> & _) | (-> & _)]; discriminate. }
  assert (Short : (exists c, In c (arrivals (executed f'))
                             /\ checkouts Customer_eq_dec c (executed f') = []) ->
                  longest_wait 0 (customers f') = None).
  { intros (c & I & Hz). apply longest_wait_None. apply Exists_exists.
    pose proof (Or c) as Oc.
    destruct (history Customer_eq_dec c (executed f')) as [times |] eqn:Hh.
    - destruct (history_Some _ _ _ Hh) as (t0 & later & -> & _).
      simpl in Oc. rewrite Hz in Oc. subst later.
      exists (c, [t0]). split; [| simpl; lia].
      apply lookup_Some_In. now rewrite (R c).
    - apply history_None in Hh. contradiction. }
  assert (Long : (forall c, In c (arrivals (executed f')) ->
                            checkouts Customer_eq_dec c (executed f') <> []) ->
                 longest_wait 0 (customers f') <> None).
  { intros A Hn. apply longest_wait_None in Hn. apply Exists_exists in Hn.
    destruct Hn as ([k times] & I & L). simpl in L.
    apply (lookup_In _ _ _ N) in I. rewrite (R k) in I.
    pose proof (Or k) as Ok. rewrite I in Ok.
    destruct (history_Some _ _ _ I) as (t0 & later & -> & _). simpl in Ok, L.
    apply (A k).
    - destruct (in_dec Customer_eq_dec k (arrivals (executed f'))) as [? | Nin];
        [assumption |].
      apply history_None in Nin. congruence.
    - rewrite <- Ok. destruct later; [reflexivity | simpl in L; lia]. }
  rewrite <- Hc in Hf.
  split; [| split].
  - intros X. specialize (Short X).
    destruct Hf as [(-> & Hw & _) | (-> & _ & _)]; [congruence |].
    split; [reflexivity |]. apply KO. discriminate.
  - intros A. specialize (Long A).
    destruct Hf as [(-> & Hw & _) | (-> & Hw & _)]; [| congruence].
    split; [reflexivity |]. now apply longest_wait_is_max.
  - intros A. destruct Hf as [(-> & Hw & _) | (-> & _ & _)].
    + assert (Hd : customers f' = []).
      { destruct (customers f') as [| [k times] rest]; [reflexivity |].
        exfalso. pose proof (R k) as Hk. simpl in Hk.
        destruct (Customer_eq_dec k k); [| congruence].
        assert (Hn : history Customer_eq_dec k (executed f') = None).
        { apply history_None. rewrite A. auto. }
        congruence. }
      rewrite Hd in Hw. simpl in Hw. congruence.
    + apply KO. discriminate.
Qed.

(** C4.  When the executed events hold two arrivals of the same customer,
    the customer is a key of the dictionary exactly once, the timestamp
    recorded for the arrival is that of the first arrival executed, and on
    return [num_customers] is the number of distinct customers that
    arrived. *)
Theorem duplicate_arrival_counted_once fuel
  (s : GroceryStoreSimulation Customer GroceryStore) evs c t1 t2 pre mid post :
  let r := run Customer_eq_dec do fuel s evs in
  executed (snd r)
  = pre ++ CustomerArrival t1 c :: mid ++ CustomerArrival t2 c :: post ->
  ~ In c (arrivals pre) ->
  count_occ Customer_eq_dec (map fst (customers (snd r))) c = 1%nat
  /\ (exists later,
        lookup Customer_eq_dec c (customers (snd r)) = Some (t1 :: later))
  /\ (fst r = Returned ->
      num_customers (stats (self (snd r)))
      = Z.of_nat (length (nodup Customer_eq_dec (arrivals (executed (snd r)))))).
Proof.
  intros r. subst r.
  destruct (run Customer_eq_dec do fuel s evs) as [o f'] eqn:E. simpl.
  intros X Npre.
  destruct (run_sound _ _ _ _ _ E) as (R & N & _ & _ & _ & OK & _).
  assert (L : lookup Customer_eq_dec c (customers f')
              = Some (t1 :: checkouts Customer_eq_dec c
                              (mid ++ CustomerArrival t2 c :: post))).
  { rewrite (R c), X, history_app.
    apply history_None in Npre. rewrite Npre. simpl.
    destruct (Customer_eq_dec c c); [reflexivity | congruence]. }
  split; [| split].
  - apply NoDup_count_occ'; [assumption |].
    destruct (in_dec Customer_eq_dec c (map fst (customers f'))) as [I | NI];
      [assumption |].
    apply lookup_None in NI. congruence.
  - eauto.
  - intros ->. destruct (OK eq_refl) as (_ & Hn & _). rewrite Hn. f_equal.
    rewrite <- (length_map fst). apply Permutation_length.
    apply NoDup_Permutation; [assumption | apply NoDup_nodup |].
    intros k. rewrite nodup_In. split; intros I.
    + destruct (in_dec Customer_eq_dec k (arrivals (executed f'))) as [? | NI];
        [assumption |].
      apply history_None in NI. rewrite <- (R k) in NI.
      apply lookup_None in NI. contradiction.
    + destruct (in_dec Customer_eq_dec k (map fst (customers f'))) as [? | NI];
        [assumption |].
      apply lookup_None in NI. rewrite (R k) in NI.
      apply history_None in NI. contradiction.
Qed.

(** C5 (amended).  From an empty queue, a run on N initial events none of
    which spawns events, given fuel for N iterations, does not run out of
    fuel; and unless it stops on the [KeyError] of a checkout completion
    whose customer has not arrived, it executes each initial event once, N
    events in all, and leaves in [total_time] the largest timestamp among
    them (0 when there are none). *)
Theorem no_double_execution fuel
  (s : GroceryStoreSimulation Customer GroceryStore) evs :
  let r := run Customer_eq_dec do fuel s evs in
  is_empty (_events s) = true ->
  spawn_nothing do evs ->
  (length evs <= fuel)%nat ->
  fst r <> OutOfFuel
  /\ (fst r <> Raised KeyError ->
      Permutation (executed (snd r)) evs
      /\ length (executed (snd r)) = length evs
      /\ match evs with
         | [] => total_time (stats (self (snd r))) = 0
         | _ :: _ => is_latest (total_time (stats (self (snd r)))) evs
         end).
Proof.
  intros r. subst r.
  destruct (run Customer_eq_dec do fuel s evs) as [o f'] eqn:E. simpl.
  intros Hq Q L.
  destruct (run_stages _ _ _ _ _ E) as (o0 & f0 & D & C).
  assert (Hp : pending (start s evs) = evs).
  { unfold pending, start. simpl. rewrite enqueue_pending.
    unfold is_empty in Hq. destruct (items (_events s)); [reflexivity | discriminate]. }
  assert (P0 : Permutation (executed (start s evs) ++ pending (start s evs)) evs).
  { rewrite Hp. reflexivity. }
  assert (B0 : forall x p, In x (executed (start s evs)) ->
                           In p (pending (start s evs)) ->
                           timestamp x <= timestamp p).
  { intros x p []. }
  rewrite <- Hp in L at 1.
  destruct (drain_quiet _ _ _ _ _ Q D P0 B0 L) as (NF & K).
  assert (Core : o0 <> Raised KeyError ->
                 Permutation (executed f0) evs
                 /\ length (executed f0) = length evs
                 /\ match evs with
                    | [] => total_time (stats (self f0)) = 0
                    | _ :: _ => is_latest (total_time (stats (self f0))) evs
                    end).
  { intros NK. destruct (K NK) as (P & T). split; [assumption |].
    split; [now apply Permutation_length |].
    destruct T as [-> | T].
    - simpl in P. apply Permutation_nil in P. subst evs. reflexivity.
    - pose proof (is_latest_perm _ _ _ P T) as T'.
      destruct evs; [| assumption].
      destruct T' as [_ [e [[] _]]]. }
  destruct C as [[-> F] | (NE & -> & ->)].
  - destruct (finish_frame _ _ _ F) as (Hx & _ & _ & Ht & Hf).
    rewrite Hx, Ht. split.
    + destruct Hf as [(-> & _) | (-> & _)]; discriminate.
    + intros _. apply Core. discriminate.
  - split; assumption.
Qed.

(** C6.  From an empty queue, [run] on no events returns with
    [num_customers], [total_time] and [max_wait] all 0, whatever the fuel. *)
Theorem run_empty fuel (s : GroceryStoreSimulation Customer GroceryStore) :
  is_empty (_events s) = true ->
  fst (run Customer_eq_dec do fuel s []) = Returned
  /\ stats (self (snd (run Customer_eq_dec do fuel s []))) = zero_stats.
Proof.
  intros Hq. unfold run.
  assert (D : drain Customer_eq_dec do fuel (start s []) = (Returned, start s [])).
  { destruct fuel; simpl; now rewrite Hq. }
  rewrite D. simpl. split; reflexivity.
Qed.

(** C7.  [run] does not read the statistics it is called with: its whole
    result, statistics included, is the same for two drivers with the same
    queue and store, and the loop starts from statistics that are all 0. *)
Theorem run_resets_statistics fuel (q : PriorityQueue Customer)
  (store : GroceryStore) (old old' : Stats) evs :
  run Customer_eq_dec do fuel {| _events := q; _store := store; stats := old |} evs
  = run Customer_eq_dec do fuel {| _events := q; _store := store; stats := old' |} evs
  /\ stats (self (start {| _events := q; _store := store; stats := old |} evs))
     = zero_stats.
Proof. split; reflexivity. Qed.

Lemma drain_guarded fuel : forall f : Frame Customer GroceryStore,
  fst (drain Customer_eq_dec do fuel f) <> Raised EmptyQueueError.
Proof.
  induction fuel as [| fuel IH]; intros f; simpl.
  - destruct (is_empty (_events (self f))); discriminate.
  - destruct (is_empty (_events (self f))) eqn:E; [discriminate |].
    destruct (remove_entry_nonempty _ E) as (least & q' & Hr).
    unfold remove. rewrite Hr.
    destruct (handle Customer_eq_dec do f (snd least) q') as [ex f1] eqn:H.
    destruct (handle_frame _ _ _ _ _ H) as (_ & _ & _ & _ & _ & Hk).
    destruct ex as [ex |]; [| apply IH].
    destruct Hk as [Hk | [Hk _]]; [discriminate |].
    inversion Hk; subst. discriminate.
Qed.

(** C8.  The loop calls [remove] only after [is_empty] has answered no, and
    [remove] succeeds on every queue that is not empty: neither the loop,
    from any frame, nor [run] ever ends on the empty-queue failure. *)
Theorem remove_guarded fuel (f : Frame Customer GroceryStore)
  (s : GroceryStoreSimulation Customer GroceryStore) evs :
  fst (drain Customer_eq_dec do fuel f) <> Raised EmptyQueueError
  /\ fst (run Customer_eq_dec do fuel s evs) <> Raised EmptyQueueError.
Proof.
  split; [apply drain_guarded |].
  destruct (run Customer_eq_dec do fuel s evs) as [o f'] eqn:E. simpl.
  now destruct (run_sound _ _ _ _ _ E) as (_ & _ & NE & _).
Qed.

(** C9.  If the executed events hold a checkout completion of a customer
    with no arrival before it, the run has failed with [KeyError] on that
    very event, the last executed; a run that fails with [KeyError] has
    done so on such an event; and in a run that returns every checkout
    completion comes after an arrival of its customer. *)
Theorem completion_without_arrival fuel
  (s : GroceryStoreSimulation Customer GroceryStore) evs :
  let r := run Customer_eq_dec do fuel s evs in
  (forall pre t c post,
      executed (snd r) = pre ++ CheckoutCompleted t c :: post ->
      ~ In c (arrivals pre) ->
      fst r = Raised KeyError /\ post = [])
  /\ (fst r = Raised KeyError ->
      exists pre t c,
        executed (snd r) = pre ++ [CheckoutCompleted t c]
        /\ ~ In c (arrivals pre))
  /\ (fst r = Returned ->
      forall pre t c post,
        executed (snd r) = pre ++ CheckoutCompleted t c :: post ->
        In c (arrivals pre)).
Proof.
  intros r. subst r.
  destruct (run Customer_eq_dec do fuel s evs) as [o f'] eqn:E. simpl.
  destruct (run_sound _ _ _ _ _ E) as (_ & _ & _ & O & K & _ & _).
  assert (Early : forall pre t c post,
             executed f' = pre ++ CheckoutCompleted t c :: post ->
             ~ In c (arrivals pre) ->
             o = Raised KeyError /\ post = []).
  { intros pre t c post X Npre.
    assert (Ho : o = Raised KeyError).
    { destruct o as [| [| |] |]; try reflexivity; exfalso; apply Npre;
        apply (orderly_arrived pre post t c); rewrite <- X; apply O; discriminate. }
    split; [assumption |].
    destruct (K Ho) as (pre' & t' & c' & X' & O' & _).
    destruct post as [| y ys]; [reflexivity | exfalso].
    destruct (@exists_last _ (y :: ys)) as (post0 & x & Hp); [discriminate |].
    rewrite Hp in X. rewrite X in X'.
    change (pre ++ CheckoutCompleted t c :: post0 ++ [x])
      with (pre ++ (CheckoutCompleted t c :: post0) ++ [x]) in X'.
    rewrite app_assoc in X'. apply app_inj_tail in X'. destruct X' as [X' _].
    apply Npre. apply (orderly_arrived pre post0 t c). now rewrite X'. }
  split; [exact Early |]. split.
  - intros Ho. destruct (K Ho) as (pre & t & c & X & _ & Npre). eauto.
  - intros -> pre t c post X.
    destruct (in_dec Customer_eq_dec c (arrivals pre)) as [? | Npre]; [assumption |].
    destruct (Early _ _ _ _ X Npre). discriminate.
Qed.

(** C10.  In a run that returns, for a customer whose first arrival is
    followed by one checkout completion or more: the dictionary holds the
    arrival timestamp followed by all those completions in order, and
    [max_wait], the largest of 0 and every customer's second recorded
    timestamp minus the first, is at least the first completion minus the
    arrival; no later completion enters it. *)
Theorem first_completion_only fuel
  (s : GroceryStoreSimulation Customer GroceryStore) evs c ta t1 later pre post :
  let r := run Customer_eq_dec do fuel s evs in
  fst r = Returned ->
  executed (snd r) = pre ++ CustomerArrival ta c :: post ->
  ~ In c (arrivals pre) ->
  checkouts Customer_eq_dec c post = t1 :: later ->
  lookup Customer_eq_dec c (customers (snd r)) = Some (ta :: t1 :: later)
  /\ t1 - ta <= max_wait (stats (self (snd r)))
  /\ is_max_wait Customer_eq_dec (max_wait (stats (self (snd r))))
                 (customers (snd r)).
Proof.
  intros r. subst r.
  destruct (run Customer_eq_dec do fuel s evs) as [o f'] eqn:E. simpl.
  intros -> X Npre Hc.
  destruct (run_sound _ _ _ _ _ E) as (R & N & _ & _ & _ & OK & _).
  destruct (OK eq_refl) as (Hw & _ & _).
  pose proof (longest_wait_is_max _ _ N Hw) as M.
  assert (L : lookup Customer_eq_dec c (customers f') = Some (ta :: t1 :: later)).
  { rewrite (R c), X, history_app.
    apply history_None in Npre. rewrite Npre. simpl.
    destruct (Customer_eq_dec c c); [now rewrite Hc | congruence]. }
  split; [assumption |]. split; [| assumption].
  destruct M as (_ & U & _). now apply (U c ta t1 later).
Qed.

End Properties.

(** C2.  From an empty queue, with events that spawn nothing, the run on
    arrival(A, 0), completion(A, 5), arrival(B, 2), completion(B, 4)
    returns, given fuel for four iterations, with [num_customers] = 2,
    [total_time] = 5 and [max_wait] = 5. *)
Theorem statistics_example {GroceryStore : Type}
  (do : Event string -> GroceryStore -> list (Event string) * GroceryStore)
  fuel (s : GroceryStoreSimulation string GroceryStore) :
  is_empty (_events s) = true ->
  spawn_nothing do Example.events ->
  (4 <= fuel)%nat ->
  fst (run string_dec do fuel s Example.events) = Returned
  /\ stats (self (snd (run string_dec do fuel s Example.events)))
     = {| num_customers := 2; total_time := 5; max_wait := 5 |}.
Proof.
  intros Hq Q L.
  destruct s as [[its nxt] store old]. unfold is_empty in Hq. simpl in Hq.
  destruct its; [| discriminate].
  destruct fuel as [| [| [| [| fuel]]]]; try lia.
  unfold run, start, enqueue, Example.events. simpl fold_left.
  erewrite drain_step;
    [| reflexivity | reflexivity | apply Q; simpl; auto | reflexivity].
  erewrite drain_step;
    [| reflexivity | reflexivity | apply Q; simpl; auto | reflexivity].
  erewrite drain_step;
    [| reflexivity | reflexivity | apply Q; simpl; auto | reflexivity].
  erewrite drain_step;
    [| reflexivity | reflexivity | apply Q; simpl; auto | reflexivity].
  destruct fuel; simpl; split; reflexivity.
Qed.

(** ** The claims on the examples *)

(** C1, as stated, fails: 5 comes out before 3 when 3 is added after 5 has
    been removed. *)
Lemma removal_not_monotone :
  map time_of (removed (calls fresh_run Example.late_add)) = [5; 3]
  /\ ~ StronglySorted Z.le (map time_of (removed (calls fresh_run Example.late_add))).
Proof.
  assert (E : map time_of (removed (calls fresh_run Example.late_add)) = [5; 3])
    by reflexivity.
  split; [exact E |]. rewrite E. intros S.
  inversion S as [| ? ? _ F]; subst. inversion F as [| ? ? H _]; subst. lia.
Qed.

Lemma removal_order_witness :
  (0 < 1)%nat
  /\ StronglySorted Z.le (map time_of (removed (calls fresh_run Example.tie))).
Proof.
  pose proof (removal_order Example.tie) as H. cbv zeta in H.
  destruct H as [F S]. split.
  - apply (F 0%nat 1%nat (0%nat, CustomerArrival 3 Example.A)
             (1%nat, CustomerArrival 3 Example.B));
      [reflexivity | reflexivity | reflexivity | apply Nat.lt_0_1].
  - apply S. reflexivity.
Defined.

Lemma statistics_example_witness :
  fst (Example.run_quiet 4 Example.events) = Returned
  /\ stats (self (snd (Example.run_quiet 4 Example.events)))
     = {| num_customers := 2; total_time := 5; max_wait := 5 |}.
Proof.
  apply (statistics_example Example.quiet 4 (init tt)).
  - reflexivity.
  - intros e _ store. reflexivity.
  - apply le_n.
Defined.

(** C3, as stated, fails: with a customer who arrives and never checks out,
    the statistics are not computed; [run] raises [IndexError]. *)
Lemma incomplete_customer_raises :
  In Example.A (arrivals Example.alone)
  /\ checkouts string_dec Example.A Example.alone = []
  /\ executed (snd (Example.run_quiet 1 Example.alone)) = Example.alone
  /\ fst (Example.run_quiet 1 Example.alone) = Raised IndexError.
Proof.
  split; [now left |]. repeat split; reflexivity.
Qed.

Lemma incomplete_customer_witness :
  (fst (Example.run_quiet 1 Example.alone) = Raised IndexError
   /\ max_wait (stats (self (snd (Example.run_quiet 1 Example.alone)))) = 0
   /\ num_customers (stats (self (snd (Example.run_quiet 1 Example.alone)))) = 0)
  /\ (fst (Example.run_quiet 4 Example.events) = Returned
      /\ is_max_wait string_dec 5
           (customers (snd (Example.run_quiet 4 Example.events)))).
Proof.
  split.
  - pose proof (incomplete_customer string_dec Example.quiet 1 (init tt)
                  Example.alone) as H.
    cbv zeta in H. destruct (H eq_refl) as (H1 & _ & _). apply H1.
    exists Example.A. split; [now left | reflexivity].
  - pose proof (incomplete_customer string_dec Example.quiet 4 (init tt)
                  Example.events) as H.
    cbv zeta in H. destruct (H eq_refl) as (_ & H2 & _). apply H2.
    intros c I. simpl in I.
    destruct I as [<- | [<- | []]]; discriminate.
Defined.

Lemma duplicate_arrival_witness :
  count_occ string_dec
    (map fst (customers (snd (Example.run_quiet 3 Example.twice)))) Example.A
  = 1%nat
  /\ (exists later,
        lookup string_dec Example.A
          (customers (snd (Example.run_quiet 3 Example.twice)))
        = Some (0 :: later))
  /\ num_customers (stats (self (snd (Example.run_quiet 3 Example.twice)))) = 1.
Proof.
  destruct (duplicate_arrival_counted_once string_dec Example.quiet 3 (init tt)
              Example.twice Example.A 0 3 [] [] [CheckoutCompleted 5 Example.A])
    as (H1 & H2 & H3).
  - reflexivity.
  - simpl. tauto.
  - split; [exact H1 |]. split; [exact H2 |]. exact (H3 eq_refl).
Defined.

(** C5, as stated, fails: of the two initial events only the first is
    executed, and [total_time] is 1, not 2, because the checkout completion
    of a customer who has not arrived stops the run. *)
Lemma early_completion_stops_run :
  spawn_nothing Example.quiet Example.early
  /\ fst (Example.run_quiet 2 Example.early) = Raised KeyError
  /\ executed (snd (Example.run_quiet 2 Example.early))
     = [CheckoutCompleted 1 Example.A]
  /\ total_time (stats (self (snd (Example.run_quiet 2 Example.early)))) = 1
  /\ ~ is_latest 1 Example.early.
Proof.
  split; [intros e _ store; reflexivity |].
  repeat split; try reflexivity.
  intros [U _]. specialize (U (CustomerArrival 2 Example.B)).
  simpl in U. assert (2 <= 1) by (apply U; auto). lia.
Qed.

Lemma no_double_execution_witness :
  fst (Example.run_quiet 4 Example.events) <> OutOfFuel
  /\ Permutation (executed (snd (Example.run_quiet 4 Example.events)))
                 Example.events
  /\ length (executed (snd (Example.run_quiet 4 Example.events))) = 4%nat
  /\ is_latest (total_time (stats (self (snd (Example.run_quiet 4 Example.events)))))
               Example.events.
Proof.
  destruct (no_double_execution string_dec Example.quiet 4 (init tt) Example.events)
    as (H1 & H2).
  - reflexivity.
  - intros e _ store. reflexivity.
  - apply le_n.
  - split; [exact H1 |]. apply H2. intros E. discriminate E.
Defined.

Lemma run_empty_witness :
  fst (Example.run_quiet 0 []) = Returned
  /\ stats (self (snd (Example.run_quiet 0 []))) = zero_stats.
Proof.
  apply (run_empty string_dec Example.quiet 0 (init tt)). reflexivity.
Defined.

Lemma completion_without_arrival_witness :
  (fst (Example.run_quiet 2 Example.early) = Raised KeyError
   /\ @nil (Event string) = [])
  /\ In Example.B (arrivals [CustomerArrival 0 Example.A; CustomerArrival 2 Example.B]).
Proof.
  split.
  - pose proof (completion_without_arrival string_dec Example.quiet 2 (init tt)
                  Example.early) as H.
    cbv zeta in H. destruct H as (H1 & _ & _).
    apply (H1 [] 1 Example.A []); [reflexivity | simpl; tauto].
  - pose proof (completion_without_arrival string_dec Example.quiet 4 (init tt)
                  Example.events) as H.
    cbv zeta in H. destruct H as (_ & _ & H3).
    apply (H3 eq_refl [CustomerArrival 0 Example.A; CustomerArrival 2 Example.B]
              4 Example.B [CheckoutCompleted 5 Example.A]).
    reflexivity.
Defined.

Lemma first_completion_witness :
  lookup string_dec Example.A (customers (snd (Example.run_quiet 3 Example.again)))
  = Some [0; 3; 7]
  /\ 3 - 0 <= max_wait (stats (self (snd (Example.run_quiet 3 Example.again))))
  /\ is_max_wait string_dec
       (max_wait (stats (self (snd (Example.run_quiet 3 Example.again)))))
       (customers (snd (Example.run_quiet 3 Example.again))).
Proof.
  apply (first_completion_only string_dec Example.quiet 3 (init tt) Example.again
           Example.A 0 3 [7] []
           [CheckoutCompleted 3 Example.A; CheckoutCompleted 7 Example.A]).
  - reflexivity.
  - reflexivity.
  - simpl. tauto.
  - reflexivity.
Defined.

(** * The engine beyond the statistics *)

Section Engine.

Context {Customer : Type}.
Context (Customer_eq_dec : forall a b : Customer, {a = b} + {a <> b}).
Context {GroceryStore : Type}.
Context (do : Event Customer -> GroceryStore -> list (Event Customer) * GroceryStore).

(** What an iteration keeps, the loop keeps. *)
Lemma drain_invariant (P : Frame Customer GroceryStore -> Prop) :
  (forall f e q ex f1,
      P f -> remove (_events (self f)) = Some (e, q) ->
      handle Customer_eq_dec do f e q = (ex, f1) -> P f1) ->
  forall fuel f o f',
    drain Customer_eq_dec do fuel f = (o, f') -> P f -> P f'.
Proof.
  intros Step. induction fuel as [| fuel IH]; intros f o f' D Pf; simpl in D.
  - destruct (is_empty (_events (self f))); inversion D; subst; assumption.
  - destruct (is_empty (_events (self f))); [inversion D; subst; assumption |].
    destruct (remove (_events (self f))) as [[e q] |] eqn:R;
      [| inversion D; subst; assumption].
    destruct (handle Customer_eq_dec do f e q) as [[ex |] f1] eqn:H.
    + inversion D; subst. eapply Step; eassumption.
    + eapply IH; [exact D |]. eapply Step; eassumption.
Qed.

Lemma finish_store (f f' : Frame Customer GroceryStore) o :
  finish f = (o, f') -> _store (self f') = _store (self f).
Proof.
  unfold finish. destruct (longest_wait 0 (customers f));
    intros H; inversion H; subst; reflexivity.
Qed.

(** The frame that [run] leaves is the one the loop leaves, but for the two
    statistics assigned after the loop. *)
Lemma run_after_drain fuel (s : GroceryStoreSimulation Customer GroceryStore)
  evs o f' :
  run Customer_eq_dec do fuel s evs = (o, f') ->
  exists o0 f0,
    drain Customer_eq_dec do fuel (start s evs) = (o0, f0)
    /\ executed f' = executed f0
    /\ _events (self f') = _events (self f0)
    /\ _store (self f') = _store (self f0)
    /\ total_time (stats (self f')) = total_time (stats (self f0))
    /\ (o = Returned \/ o = Raised IndexError -> o0 = Returned).
Proof.
  intros E. destruct (run_stages _ _ _ _ _ _ _ E) as (o0 & f0 & D & C).
  exists o0, f0. split; [assumption |].
  destruct C as [[-> F] | (NE & -> & ->)].
  - destruct (finish_frame _ _ _ F) as (Hx & _ & Hq & Ht & _).
    pose proof (finish_store _ _ _ F). auto 10.
  - repeat split; try reflexivity.
    destruct (start_sound Customer_eq_dec s evs) as (R0 & N0 & O0).
    destruct (drain_sound _ _ _ _ _ _ D R0 N0 O0) as (_ & _ & I3 & _).
    intros [-> | ->]; [congruence |].
    destruct I3 as [? | [? | ?]]; congruence.
Qed.

Lemma remove_least (q q' : PriorityQueue Customer) e :
  remove q = Some (e, q') ->
  Permutation (map snd (items q)) (e :: map snd (items q'))
  /\ Forall (fun p => timestamp e <= timestamp p) (map snd (items q)).
Proof.
  intros R. destruct (remove_Some _ _ _ R) as (least & Hr & ->).
  destruct (remove_entry_spec _ _ _ Hr) as (P & M & _). split.
  - now apply (Permutation_map snd) in P.
  - apply Forall_map. eapply Forall_impl; [| exact M]. simpl.
    unfold comes_before, time_of. intros; lia.
Qed.

Lemma thread_snoc (store : GroceryStore) trace e :
  thread do store (trace ++ [e]) = snd (do e (thread do store trace)).
Proof. unfold thread. now rewrite fold_left_app. Qed.

Lemma spawned_snoc trace e : forall store : GroceryStore,
  spawned do store (trace ++ [e])
  = spawned do store trace ++ fst (do e (thread do store trace)).
Proof.
  induction trace as [| x rest IH]; intros store; simpl.
  - now rewrite app_nil_r.
  - rewrite IH, app_assoc. reflexivity.
Qed.

Lemma handle_pending (f f1 : Frame Customer GroceryStore) e q ex :
  handle Customer_eq_dec do f e q = (ex, f1) ->
  pending f1 = map snd (items q) ++ fst (do e (_store (self f))).
Proof.
  intros H. destruct (handle_frame _ _ _ _ _ _ _ H) as (_ & _ & Hq & _).
  unfold pending. rewrite Hq. apply enqueue_pending.
Qed.

(** The store is threaded through the executed events, and no event is
    lost or made up. *)
Lemma drain_conserves base (store0 : GroceryStore) fuel
  (f f' : Frame Customer GroceryStore) o :
  drain Customer_eq_dec do fuel f = (o, f') ->
  _store (self f) = thread do store0 (executed f)
  /\ Permutation (executed f ++ pending f) (base ++ spawned do store0 (executed f)) ->
  _store (self f') = thread do store0 (executed f')
  /\ Permutation (executed f' ++ pending f') (base ++ spawned do store0 (executed f')).
Proof.
  apply (drain_invariant
           (fun f => _store (self f) = thread do store0 (executed f)
                     /\ Permutation (executed f ++ pending f)
                                    (base ++ spawned do store0 (executed f)))).
  clear. intros f e q ex f1 [S P] R H.
  destruct (handle_frame _ _ _ _ _ _ _ H) as (Hx & _ & _ & Hs & _).
  pose proof (handle_pending _ _ _ _ _ H) as Hp.
  destruct (remove_least _ _ _ R) as (Pq & _). fold (pending f) in Pq.
  split.
  - rewrite Hs, Hx, thread_snoc, S. reflexivity.
  - rewrite Hx, Hp, spawned_snoc, <- S.
    transitivity ((executed f ++ pending f) ++ fst (do e (_store (self f)))).
    + rewrite <- !app_assoc. apply Permutation_app_head.
      change ([e] ++ map snd (items q) ++ fst (do e (_store (self f))))
        with ((e :: map snd (items q)) ++ fst (do e (_store (self f)))).
      apply Permutation_app_tail. now symmetry.
    + rewrite (app_assoc base). now apply Permutation_app_tail.
Qed.

(** [total_time] follows the last executed event. *)
Lemma drain_total_time fuel (f f' : Frame Customer GroceryStore) o :
  drain Customer_eq_dec do fuel f = (o, f') ->
  total_time (stats (self f)) = last (map timestamp (executed f)) 0 ->
  total_time (stats (self f')) = last (map timestamp (executed f')) 0.
Proof.
  apply (drain_invariant
           (fun f => total_time (stats (self f))
                     = last (map timestamp (executed f)) 0)).
  clear. intros f e q ex f1 _ _ H.
  destruct (handle_frame _ _ _ _ _ _ _ H) as (Hx & Hs & _).
  rewrite Hs, Hx, map_app. simpl. now rewrite last_last.
Qed.

(** With a causal [do], executed events never follow a pending one in
    time, so the clock never goes back. *)
Lemma drain_chronological fuel (f f' : Frame Customer GroceryStore) o :
  causal do ->
  drain Customer_eq_dec do fuel f = (o, f') ->
  Forall (fun x => Forall (fun p => timestamp x <= timestamp p) (pending f))
         (executed f)
  /\ StronglySorted Z.le (map timestamp (executed f))
  /\ Forall (fun x => timestamp x <= total_time (stats (self f))) (executed f) ->
  Forall (fun x => Forall (fun p => timestamp x <= timestamp p) (pending f'))
         (executed f')
  /\ StronglySorted Z.le (map timestamp (executed f'))
  /\ Forall (fun x => timestamp x <= total_time (stats (self f'))) (executed f').
Proof.
  intros C.
  apply (drain_invariant
           (fun f =>
              Forall (fun x => Forall (fun p => timestamp x <= timestamp p)
                                      (pending f)) (executed f)
              /\ StronglySorted Z.le (map timestamp (executed f))
              /\ Forall (fun x => timestamp x <= total_time (stats (self f)))
                        (executed f))).
  clear fuel f f' o. intros f e q ex f1 (B & S & T) R H.
  destruct (handle_frame _ _ _ _ _ _ _ H) as (Hx & Hs & _).
  pose proof (handle_pending _ _ _ _ _ H) as Hp.
  destruct (remove_least _ _ _ R) as (Pq & Mq). fold (pending f) in Pq, Mq.
  assert (Be : Forall (fun x => timestamp x <= timestamp e) (executed f)).
  { eapply Forall_impl; [| exact B]. simpl. intros x Fx.
    rewrite Forall_forall in Fx. apply Fx.
    eapply Permutation_in; [symmetry; exact Pq |]. now left. }
  assert (Mq' : Forall (fun p => timestamp e <= timestamp p)
                       (map snd (items q) ++ fst (do e (_store (self f))))).
  { apply Forall_app. split.
    - assert (M : Forall (fun p => timestamp e <= timestamp p)
                         (e :: map snd (items q)))
        by (eapply Permutation_Forall; eassumption).
      now inversion M.
    - apply Forall_forall. intros p Ip. eapply C; eassumption. }
  rewrite Hx, Hp, Hs. simpl. split; [| split].
  - apply Forall_app. split.
    + apply Forall_forall. intros x Ix. apply Forall_forall. intros p Ip.
      rewrite Forall_forall in Be, Mq'.
      specialize (Be _ Ix). specialize (Mq' _ Ip). lia.
    + constructor; [exact Mq' | constructor].
  - rewrite map_app. simpl. apply StronglySorted_snoc; [assumption |].
    now apply Forall_map.
  - apply Forall_app. split; [exact Be |].
    constructor; [lia | constructor].
Qed.

Lemma history_timestamps c (trace : list (Event Customer)) times :
  history Customer_eq_dec c trace = Some times ->
  Forall (fun t => In t (map timestamp trace)) times.
Proof.
  assert (Ck : forall tr, Forall (fun t => In t (map timestamp tr))
                                 (checkouts Customer_eq_dec c tr)).
  { induction tr as [| [t k | t k | t n] rest IH]; simpl.
    - constructor.
    - eapply Forall_impl; [| exact IH]. simpl. auto.
    - destruct (Customer_eq_dec c k).
      + constructor; [now left |]. eapply Forall_impl; [| exact IH]. simpl. auto.
      + eapply Forall_impl; [| exact IH]. simpl. auto.
    - eapply Forall_impl; [| exact IH]. simpl. auto. }
  induction trace as [| [t k | t k | t n] rest IH]; simpl; intros H.
  - discriminate.
  - destruct (Customer_eq_dec c k).
    + inversion H; subst. constructor; [now left |].
      eapply Forall_impl; [| apply Ck]. simpl. auto.
    + eapply Forall_impl; [| exact (IH H)]. simpl. auto.
  - eapply Forall_impl; [| exact (IH H)]. simpl. auto.
  - eapply Forall_impl; [| exact (IH H)]. simpl. auto.
Qed.

Lemma start_pending (s : GroceryStoreSimulation Customer GroceryStore) evs :
  pending (start s evs) = map snd (items (_events s)) ++ evs.
Proof. unfold pending, start. simpl. apply enqueue_pending. Qed.

Lemma run_conserves fuel (s : GroceryStoreSimulation Customer GroceryStore)
  evs o f' :
  run Customer_eq_dec do fuel s evs = (o, f') ->
  _store (self f') = thread do (_store s) (executed f')
  /\ Permutation (executed f' ++ pending f')
       (map snd (items (_events s)) ++ evs ++ spawned do (_store s) (executed f'))
  /\ (o = Returned \/ o = Raised IndexError -> is_empty (_events (self f')) = true).
Proof.
  intros E.
  destruct (run_after_drain _ _ _ _ _ E) as (o0 & f0 & D & Hx & Hq & Hs & _ & Ho).
  assert (I0 : _store (self (start s evs))
               = thread do (_store s) (executed (start s evs))
               /\ Permutation (executed (start s evs) ++ pending (start s evs))
                    ((map snd (items (_events s)) ++ evs)
                       ++ spawned do (_store s) (executed (start s evs)))).
  { split; [reflexivity |]. rewrite start_pending. simpl. now rewrite app_nil_r. }
  destruct (drain_conserves _ _ _ _ _ _ D I0) as (S & P).
  unfold pending in *. rewrite Hx, Hq, Hs. split; [assumption |]. split.
  - now rewrite app_assoc.
  - intros R. specialize (Ho R). subst o0.
    destruct (start_sound Customer_eq_dec s evs) as (R0 & N0 & O0).
    destruct (drain_sound _ _ _ _ _ _ D R0 N0 O0) as (_ & _ & _ & I4 & _).
    now apply I4.
Qed.

Lemma run_chronological fuel (s : GroceryStoreSimulation Customer GroceryStore)
  evs o f' :
  causal do ->
  run Customer_eq_dec do fuel s evs = (o, f') ->
  StronglySorted Z.le (map timestamp (executed f'))
  /\ Forall (fun x => timestamp x <= total_time (stats (self f'))) (executed f').
Proof.
  intros C E.
  destruct (run_after_drain _ _ _ _ _ E) as (o0 & f0 & D & Hx & _ & _ & Ht & _).
  assert (I0 : Forall (fun x => Forall (fun p => timestamp x <= timestamp p)
                                       (pending (start s evs)))
                      (executed (start s evs))
               /\ StronglySorted Z.le (map timestamp (executed (start s evs)))
               /\ Forall (fun x => timestamp x
                                   <= total_time (stats (self (start s evs))))
                         (executed (start s evs))).
  { simpl. repeat split; constructor. }
  destruct (drain_chronological _ _ _ _ C D I0) as (_ & S & T).
  rewrite Hx, Ht. auto.
Qed.

(** ** More of what [run] does *)

(** X1.  A run that returns, or that raises [IndexError] after the loop,
    leaves the driver's queue empty. *)
Theorem run_leaves_queue_empty fuel
  (s : GroceryStoreSimulation Customer GroceryStore) evs :
  let r := run Customer_eq_dec do fuel s evs in
  fst r = Returned \/ fst r = Raised IndexError ->
  is_empty (_events (self (snd r))) = true.
Proof.
  intros r. subst r.
  destruct (run Customer_eq_dec do fuel s evs) as [o f'] eqn:E. simpl.
  now destruct (run_conserves _ _ _ _ _ E) as (_ & _ & Q).
Qed.

(** X2.  However the run ends, [total_time] is the timestamp of the last
    event executed, and 0 when none was. *)
Theorem total_time_is_last_timestamp fuel
  (s : GroceryStoreSimulation Customer GroceryStore) evs :
  let r := run Customer_eq_dec do fuel s evs in
  total_time (stats (self (snd r))) = last (map timestamp (executed (snd r))) 0.
Proof.
  intros r. subst r.
  destruct (run Customer_eq_dec do fuel s evs) as [o f'] eqn:E. simpl.
  destruct (run_after_drain _ _ _ _ _ E) as (o0 & f0 & D & Hx & _ & _ & Ht & _).
  rewrite Hx, Ht. apply (drain_total_time _ _ _ _ D). reflexivity.
Qed.

(** X3.  A run that does not return leaves [max_wait] and [num_customers]
    at the 0 of the reset: they are assigned only after the loop and the
    scan of the customers have both succeeded. *)
Theorem failed_run_statistics fuel
  (s : GroceryStoreSimulation Customer GroceryStore) evs :
  let r := run Customer_eq_dec do fuel s evs in
  fst r <> Returned ->
  max_wait (stats (self (snd r))) = 0 /\ num_customers (stats (self (snd r))) = 0.
Proof.
  intros r. subst r.
  destruct (run Customer_eq_dec do fuel s evs) as [o f'] eqn:E. simpl.
  now destruct (run_sound _ _ _ _ _ _ _ E) as (_ & _ & _ & _ & _ & _ & KO).
Qed.

(** X4.  The store that the run leaves is the store on entry after the
    executed events have acted on it, one after the other in the order of
    execution: the loop hands the store from each event to the next and
    does nothing else to it. *)
Theorem store_threaded fuel
  (s : GroceryStoreSimulation Customer GroceryStore) evs :
  let r := run Customer_eq_dec do fuel s evs in
  _store (self (snd r)) = thread do (_store s) (executed (snd r)).
Proof.
  intros r. subst r.
  destruct (run Customer_eq_dec do fuel s evs) as [o f'] eqn:E. simpl.
  now destruct (run_conserves _ _ _ _ _ E) as (S & _).
Qed.

(** X5.  No event is lost, made up or executed twice: the events executed
    together with those left in the queue are, up to order, the events in
    the queue on entry, the initial events and the events that the executed
    ones spawned; when the run returns or raises [IndexError], nothing is
    left and the executed events are all of these. *)
Theorem events_conserved fuel
  (s : GroceryStoreSimulation Customer GroceryStore) evs :
  let r := run Customer_eq_dec do fuel s evs in
  let all := map snd (items (_events s)) ++ evs
             ++ spawned do (_store s) (executed (snd r)) in
  Permutation (executed (snd r) ++ pending (snd r)) all
  /\ (fst r = Returned \/ fst r = Raised IndexError ->
      Permutation (executed (snd r)) all).
Proof.
  intros r all. subst all r.
  destruct (run Customer_eq_dec do fuel s evs) as [o f'] eqn:E. simpl.
  destruct (run_conserves _ _ _ _ _ E) as (_ & P & Q).
  split; [assumption |]. intros R. specialize (Q R).
  unfold pending in P. unfold is_empty in Q.
  destruct (items (_events (self f'))); [| discriminate].
  simpl in P. now rewrite app_nil_r in P.
Qed.

(** X6.  When no event spawns an event earlier than itself, the simulated
    clock never goes back: the timestamps of the executed events are in
    non-decreasing order, whatever the queue held on entry, and
    [total_time] is at least each of them. *)
Theorem clock_never_goes_back fuel
  (s : GroceryStoreSimulation Customer GroceryStore) evs :
  let r := run Customer_eq_dec do fuel s evs in
  causal do ->
  StronglySorted Z.le (map timestamp (executed (snd r)))
  /\ (forall e, In e (executed (snd r)) ->
                timestamp e <= total_time (stats (self (snd r)))).
Proof.
  intros r. subst r.
  destruct (run Customer_eq_dec do fuel s evs) as [o f'] eqn:E. simpl.
  intros C. destruct (run_chronological _ _ _ _ _ C E) as (S & T).
  split; [assumption |]. now apply Forall_forall.
Qed.

(** X7.  When the run returns, [num_customers] is at most the number of
    arrival events executed, and equal to it when no two of them are for
    the same customer, which is the precondition of [run] on arrivals. *)
Theorem num_customers_bounds fuel
  (s : GroceryStoreSimulation Customer GroceryStore) evs :
  let r := run Customer_eq_dec do fuel s evs in
  fst r = Returned ->
  0 <= num_customers (stats (self (snd r)))
    <= Z.of_nat (length (arrivals (executed (snd r))))
  /\ (NoDup (arrivals (executed (snd r))) ->
      num_customers (stats (self (snd r)))
      = Z.of_nat (length (arrivals (executed (snd r))))).
Proof.
  intros r. subst r.
  destruct (run Customer_eq_dec do fuel s evs) as [o f'] eqn:E. simpl.
  intros ->.
  destruct (run_sound _ _ _ _ _ _ _ E) as (R & N & _ & _ & _ & OK & _).
  destruct (OK eq_refl) as (_ & Hn & _). rewrite Hn, <- (length_map fst).
  assert (Sub : forall k, In k (map fst (customers f')) <->
                          In k (arrivals (executed f'))).
  { intros k. split; intros I.
    - destruct (in_dec Customer_eq_dec k (arrivals (executed f'))) as [? | NI];
        [assumption |].
      apply (history_None Customer_eq_dec) in NI. rewrite <- (R k) in NI.
      apply lookup_None in NI. contradiction.
    - destruct (in_dec Customer_eq_dec k (map fst (customers f'))) as [? | NI];
        [assumption |].
      apply (lookup_None Customer_eq_dec) in NI. rewrite (R k) in NI.
      apply history_None in NI. contradiction. }
  split.
  - split; [lia |]. apply inj_le. apply NoDup_incl_length; [assumption |].
    intros k. apply Sub.
  - intros Na. f_equal. apply Permutation_length.
    now apply NoDup_Permutation.
Qed.

(** X8.  When no event spawns an event earlier than itself and the run
    returns, [max_wait] is non-negative and at most the time between the
    first executed event and [total_time]; it is 0 when nothing was
    executed. *)
Theorem max_wait_within_span fuel
  (s : GroceryStoreSimulation Customer GroceryStore) evs :
  let r := run Customer_eq_dec do fuel s evs in
  causal do ->
  fst r = Returned ->
  0 <= max_wait (stats (self (snd r)))
  /\ match executed (snd r) with
     | [] => max_wait (stats (self (snd r))) = 0
     | first :: _ =>
         max_wait (stats (self (snd r)))
         <= total_time (stats (self (snd r))) - timestamp first
     end.
Proof.
  intros r. subst r.
  destruct (run Customer_eq_dec do fuel s evs) as [o f'] eqn:E. simpl.
  intros C ->.
  destruct (run_sound _ _ _ _ _ _ _ E) as (R & N & _ & _ & _ & OK & _).
  destruct (OK eq_refl) as (Hw & _ & _).
  destruct (longest_wait_is_max Customer_eq_dec _ _ N Hw) as (W0 & _ & W).
  destruct (run_chronological _ _ _ _ _ C E) as (S & T).
  split; [assumption |].
  assert (Pair : max_wait (stats (self f')) = 0
                 \/ exists a b, In a (map timestamp (executed f'))
                                /\ In b (map timestamp (executed f'))
                                /\ max_wait (stats (self f')) = b - a).
  { destruct W as [W | (k & a & b & more & L & W)]; [now left | right].
    rewrite (R k) in L. apply history_timestamps in L.
    inversion L as [| ? ? Ia L']; subst. inversion L' as [| ? ? Ib _]; subst.
    eauto. }
  destruct (executed f') as [| first rest] eqn:X.
  - destruct Pair as [? | (a & b & [] & _)]; assumption.
  - simpl in S. inversion S as [| ? ? _ Hmin]; subst.
    assert (Low : forall a, In a (map timestamp (first :: rest)) ->
                            timestamp first <= a).
    { simpl. intros a [<- | Ia]; [lia |].
      rewrite Forall_forall in Hmin. now apply Hmin. }
    assert (High : forall b, In b (map timestamp (first :: rest)) ->
                             b <= total_time (stats (self f'))).
    { intros b Ib. apply in_map_iff in Ib. destruct Ib as (e & <- & Ie).
      rewrite Forall_forall in T. now apply T. }
    destruct Pair as [-> | (a & b & Ia & Ib & ->)].
    + specialize (High (timestamp first) (or_introl eq_refl)). lia.
    + specialize (Low _ Ia). specialize (High _ Ib). lia.
Qed.

(** X9.  After a run that returned, the next run on the same driver deals
    with its own events only: its executed and pending events are, up to
    order, its initial events and the events spawned from them, starting
    from the store the first run left. *)
Theorem second_run_is_clean fuel fuel'
  (s : GroceryStoreSimulation Customer GroceryStore) evs evs' :
  let s1 := self (snd (run Customer_eq_dec do fuel s evs)) in
  let r2 := run Customer_eq_dec do fuel' s1 evs' in
  fst (run Customer_eq_dec do fuel s evs) = Returned ->
  Permutation (executed (snd r2) ++ pending (snd r2))
              (evs' ++ spawned do (_store s1) (executed (snd r2))).
Proof.
  intros s1 r2. subst r2 s1.
  destruct (run Customer_eq_dec do fuel s evs) as [o f1] eqn:E1. simpl.
  intros ->.
  destruct (run_conserves _ _ _ _ _ E1) as (_ & _ & Q1).
  specialize (Q1 (or_introl eq_refl)). unfold is_empty in Q1.
  destruct (run Customer_eq_dec do fuel' (self f1) evs') as [o2 f2] eqn:E2. simpl.
  destruct (run_conserves _ _ _ _ _ E2) as (_ & P2 & _).
  destruct (items (_events (self f1))); [| discriminate].
  exact P2.
Qed.

End Engine.

(** ** The engine on the examples *)

Lemma serve_causal : causal Example.serve.
Proof.
  intros e served e' I. destruct e as [t c | t c | t n]; simpl in I.
  - destruct I as [<- | []]. simpl. lia.
  - destruct I.
  - destruct I.
Defined.

Lemma run_leaves_queue_empty_witness :
  is_empty (_events (self (snd (Example.run_serve 4 Example.arrivals_only)))) = true.
Proof.
  apply (run_leaves_queue_empty string_dec Example.serve 4 (init 0%nat)
           Example.arrivals_only).
  left. reflexivity.
Defined.

Lemma failed_run_statistics_witness :
  max_wait (stats (self (snd (Example.run_quiet 2 Example.early)))) = 0
  /\ num_customers (stats (self (snd (Example.run_quiet 2 Example.early)))) = 0.
Proof.
  apply (failed_run_statistics string_dec Example.quiet 2 (init tt) Example.early).
  intros E. discriminate E.
Defined.

Lemma events_conserved_witness :
  Permutation
    (executed (snd (Example.run_serve 4 Example.arrivals_only)))
    (Example.arrivals_only
       ++ [CheckoutCompleted 2 Example.B; CheckoutCompleted 5 Example.A]).
Proof.
  pose proof (events_conserved string_dec Example.serve 4 (init 0%nat)
                Example.arrivals_only) as H.
  cbv zeta in H. destruct H as [_ H]. apply H. left. reflexivity.
Defined.

Lemma clock_never_goes_back_witness :
  StronglySorted Z.le
    (map timestamp (executed (snd (Example.run_serve 4 Example.arrivals_only))))
  /\ (forall e,
        In e (executed (snd (Example.run_serve 4 Example.arrivals_only))) ->
        timestamp e
        <= total_time (stats (self (snd (Example.run_serve 4
                                           Example.arrivals_only))))).
Proof.
  apply (clock_never_goes_back string_dec Example.serve 4 (init 0%nat)
           Example.arrivals_only).
  exact serve_causal.
Defined.

Lemma num_customers_bounds_witness :
  num_customers (stats (self (snd (Example.run_serve 4 Example.arrivals_only)))) = 2.
Proof.
  destruct (num_customers_bounds string_dec Example.serve 4 (init 0%nat)
              Example.arrivals_only) as [_ H].
  - reflexivity.
  - apply H. simpl. constructor.
    + simpl. intros [E | []]. discriminate E.
    + constructor; [simpl; tauto | constructor].
Defined.

Lemma max_wait_within_span_witness :
  0 <= max_wait (stats (self (snd (Example.run_serve 4 Example.arrivals_only))))
  /\ max_wait (stats (self (snd (Example.run_serve 4 Example.arrivals_only))))
     <= total_time (stats (self (snd (Example.run_serve 4 Example.arrivals_only))))
        - 0.
Proof.
  exact (max_wait_within_span string_dec Example.serve 4 (init 0%nat)
           Example.arrivals_only serve_causal eq_refl).
Defined.

Lemma second_run_is_clean_witness :
  Permutation
    (executed (snd (run string_dec Example.serve 2
                      (self (snd (Example.run_serve 4 Example.arrivals_only)))
                      [CustomerArrival 10 Example.A]))
     ++ pending (snd (run string_dec Example.serve 2
                        (self (snd (Example.run_serve 4 Example.arrivals_only)))
                        [CustomerArrival 10 Example.A])))
    [CustomerArrival 10 Example.A; CheckoutCompleted 12 Example.A].
Proof.
  apply (second_run_is_clean string_dec Example.serve 4 2 (init 0%nat)
           Example.arrivals_only [CustomerArrival 10 Example.A]).
  reflexivity.
Defined.
